(** * mr/core/fitting.py: column-wise curve fitting

    A shallow embedding of [src/mr/core/fitting.py] (the class [Result], the
    driver [NLS] with its closure [residual_func], and [fit_powerlaw]) and
    the properties of it that the specification states.

    The module is Python 2 code over numpy, pandas, scipy and lmfit.  Those
    libraries are not part of the module: what the module needs of them is
    either written out below from their documented behaviour (the pandas
    [Series] operations) or taken as a variable of the section [Fitting]
    (numpy's [log], [exp] and power, scipy's [linregress], lmfit's
    [minimize]).  Numbers are IEEE binary64 values, the kernel's [float]. *)

From Stdlib Require Import ZArith Floats Lia Bool FunctionalExtensionality.
From Stdlib Require Uint63.
From stdpp Require Import base option list gmap strings.

Local Open Scope string_scope.
Local Open Scope list_scope.

(** ** Numbers: numpy's float64 *)

Module Float64.

Definition NaN : float := PrimFloat.nan.
Definition zero : float := PrimFloat.zero.
Definition one : float := PrimFloat.one.

(** [pandas.isnull] on a float: NaN is missing, and so are both
    infinities while the pandas option [use_inf_as_null] is set ([NLS]
    sets it on line 92 and resets it on line 140). *)
Definition isnull (use_inf_as_null : bool) (v : float) : bool :=
  PrimFloat.is_nan v || (use_inf_as_null && PrimFloat.is_infinity v).

(** A count as a float (the divisor of a mean). *)
Definition of_nat (n : nat) : float :=
  PrimFloat.of_uint63 (Uint63.of_Z (Z.of_nat n)).

(** Sum of a sequence, accumulated from the left. *)
Definition sum (l : list float) : float := fold_left PrimFloat.add l zero.

End Float64.

Import Float64.

(** ** pandas Series over the rows of one table

    Every Series the module handles is indexed by labels of the input
    table's row index.  A Series is kept as one slot per row of the table:
    [Some v] when the row's label is in the Series' index with value [v],
    [None] when the label is absent from the index.

    pandas aligns two Series on their labels: on the union of the two
    indexes, sorted, with a label multiplied out when it occurs more than
    once.  For the Series met here, whose indexes are parts of one table's
    row index, that is alignment row by row exactly when the table's row
    labels are strictly increasing ([increasing] below), as on a time axis:
    the labels are then distinct and the sorted union of two parts of the
    index lists their rows in the table's order.  The operations below are
    written for such tables; what pandas does on a table whose row labels
    repeat or are out of order is not modelled, and the properties that rest
    on an alignment assume [increasing]. *)

Abbreviation Series := (list (option float)).

(** Row labels in strictly increasing order, none of them NaN. *)
Fixpoint increasing (l : list float) : bool :=
  match l with
  | [] => true
  | a :: l' =>
      negb (PrimFloat.is_nan a)
      && match l' with
         | [] => true
         | b :: _ => PrimFloat.ltb a b
         end
      && increasing l'
  end.

(** [Series(values, index=<all rows>)]. *)
Definition Series_of (vs : list float) : Series := map Some vs.

(** [s.values]: the values, in index order. *)
Definition Series_values (s : Series) : list float := omap id s.

(** [s.index], as row numbers. *)
Fixpoint Series_index_from (i : nat) (s : Series) : list nat :=
  match s with
  | [] => []
  | Some _ :: s' => i :: Series_index_from (S i) s'
  | None :: s' => Series_index_from (S i) s'
  end.
Definition Series_index (s : Series) : list nat := Series_index_from 0 s.

(** [s.size]. *)
Definition Series_size (s : Series) : nat := length (Series_values s).

(** [s.apply(g)] and numpy ufuncs on a Series: elementwise, same index. *)
Definition Series_apply (g : float -> float) (s : Series) : Series :=
  map (fmap g) s.

(** Binary arithmetic aligns the operands on the union of their indexes; a
    label that only one operand has gives NaN.  Row by row, for operands
    over one table with [increasing] row labels. *)
Definition align (op : float -> float -> float) (a b : option float)
  : option float :=
  match a, b with
  | Some u, Some v => Some (op u v)
  | None, None => None
  | _, _ => Some NaN
  end.
Definition Series_binop (op : float -> float -> float) (a b : Series)
  : Series := zip_with (align op) a b.
Definition Series_sub : Series -> Series -> Series := Series_binop PrimFloat.sub.
Definition Series_mul : Series -> Series -> Series := Series_binop PrimFloat.mul.

Section Nulls.

(** The state of the pandas option when the operation runs. *)
Variable use_inf_as_null : bool.

(** [s.dropna()]: the entries that are not null, with their labels. *)
Definition dropna_slot (o : option float) : option float :=
  match o with
  | Some v => if isnull use_inf_as_null v then None else Some v
  | None => None
  end.
Definition Series_dropna (s : Series) : Series := map dropna_slot s.

(** The arithmetic mean of the entries of [l] that are not null, NaN when
    there is none. *)
Definition notnull (v : float) : bool := negb (isnull use_inf_as_null v).
Definition nanmean (l : list float) : float :=
  match List.filter notnull l with
  | [] => NaN
  | vs => PrimFloat.div (sum vs) (of_nat (length vs))
  end.

(** [s.mean()] skips null entries. *)
Definition Series_mean (s : Series) : float := nanmean (Series_values s).

(** [s.fillna(v)]: null entries become [v]; the index is unchanged. *)
Definition fill (v u : float) : float :=
  if isnull use_inf_as_null u then v else u.
Definition Series_fillna (v : float) (s : Series) : Series :=
  map (fmap (fill v)) s.

End Nulls.

(** ** lmfit Parameters

    An ordered mapping from a parameter's name to its definition; of a
    definition the module reads [value] and [stderr]. *)

Module lmfit.

Record Param := { value : float; stderr : float }.
Definition Parameters := list (string * Param).
Definition keys (p : Parameters) : list string := map fst p.

(** What [lmfit.minimize] hands back: the final parameters, the residual
    vector of the last evaluation, and whether the fit converged. *)
Record Minimizer := {
  params : Parameters;
  residual : list float;
  success : bool
}.

End lmfit.

Abbreviation Parameters := lmfit.Parameters.
Abbreviation Minimizer := lmfit.Minimizer.

(** ** The residual builder (fitting.py lines 93-104)

    [residual_func] is a closure of [NLS] over [model_func] and
    [log_residual]; the solver calls it while [use_inf_as_null] is set. *)

Section Residual.

(** numpy's natural logarithm, elementwise. *)
Variable np_log : float -> float.
(** The caller's model [f(x, params)]. *)
Variable model_func : float -> Parameters -> float.
Variable log_residual : bool.

Definition residual_func (params : Parameters) (x y : Series)
    (weights : option Series) : list float :=
  let f := Series_apply (fun x => model_func x params) x in
  let e :=
    if log_residual then
      let e := Series_sub (Series_apply np_log y) (Series_apply np_log f) in
      Series_fillna true (Series_mean true e) e
    else
      let e := Series_sub y f in
      Series_fillna true (Series_mean true e) e in
  match weights with
  | None => Series_values e
  | Some weights => Series_values (Series_mul e weights)
  end.

End Residual.

(** ** Exceptions and observable calls

    A computation of the module either returns or raises, and on the way it
    calls the caller's parameter factory, the solver, the plotting module and
    [print]; those calls are recorded in order. *)

Inductive exn :=
| AssertionError (msg : string)
| IndexError
| TypeError
| AttributeError (name : string)
| LibraryError (what : string).

Inductive outcome (A : Type) :=
| Ok (a : A)
| Raise (e : exn).
Arguments Ok {A} a.
Arguments Raise {A} e.

Inductive event :=
| EvParams (y : Series)
| EvMinimize (p : Parameters) (a b : Series) (weights : option Series)
| EvPrint (slope intercept : float)
| EvPlot (fits : gmap string Series).

Definition M (A : Type) : Type := outcome A * list event.

Definition ret {A} (a : A) : M A := (Ok a, []).
Definition raise {A} (e : exn) : M A := (Raise e, []).
Definition emit (ev : event) : M unit := (Ok tt, [ev]).
Definition bind {A B} (m : M A) (k : A -> M B) : M B :=
  match m with
  | (Ok a, t) => let '(r, t') := k a in (r, t ++ t')
  | (Raise e, t) => (Raise e, t)
  end.
Definition lift {A} (o : outcome A) : M A := (o, []).

Declare Scope fit_scope.
Delimit Scope fit_scope with fit.
Notation "x <- m ;; k" := (bind m (fun x => k))
  (at level 100, m at next level, right associativity) : fit_scope.
Notation "m ;; k" := (bind m (fun _ => k))
  (at level 100, right associativity) : fit_scope.
Local Open Scope fit_scope.

Fixpoint foldM {A B} (f : A -> B -> M A) (a : A) (l : list B) : M A :=
  match l with
  | [] => ret a
  | b :: l' => a' <- f a b ;; foldM f a' l'
  end.

(** [assert cond, msg]. *)
Definition py_assert (cond : bool) (msg : string) : M unit :=
  if cond then ret tt else raise (AssertionError msg).

(** ** Tables *)

(** The input: a DataFrame whose row index is the exogenous variable and
    whose columns are the series to fit; a missing entry is NaN. *)
Record DataFrame := {
  index : list float;
  columns : list (string * list float)
}.

(** Every column has one entry per row and column labels are distinct. *)
Definition wf_table (data : DataFrame) : Prop :=
  NoDup (map fst (columns data)) /\
  Forall (fun c => length (snd c) = length (index data)) (columns data).

(** [ys.icol(0)]: the first column, by position. *)
Definition icol0 (ys : DataFrame) : M Series :=
  match columns ys with
  | [] => raise IndexError
  | (_, vs) :: _ => ret (Series_of vs)
  end.

(** The tables of fitted values and of standard errors: a DataFrame with
    string labels on both axes. *)
Record ParamFrame := {
  frame_index : list string;
  frame_columns : list (string * list float)
}.

(** [DataFrame(index=names)]. *)
Definition ParamFrame_new (names : list string) : ParamFrame :=
  {| frame_index := names; frame_columns := [] |}.

Fixpoint assoc_get {A} (k : string) (l : list (string * A)) : option A :=
  match l with
  | [] => None
  | (k', a) :: l' => if String.eqb k k' then Some a else assoc_get k l'
  end.

Fixpoint assoc_set {A} (k : string) (a : A) (l : list (string * A))
  : list (string * A) :=
  match l with
  | [] => [(k, a)]
  | (k', a') :: l' =>
      if String.eqb k k' then (k, a) :: l' else (k', a') :: assoc_set k a l'
  end.

(** [frame[col] = s] for a Series [s] labelled by names: [s] is aligned on
    the frame's index (a name [s] lacks gives NaN, a name the index lacks
    is dropped); the column is replaced when it exists and appended
    otherwise. *)
Definition reindex (names : list string) (s : list (string * float))
  : list float :=
  map (fun name => default NaN (assoc_get name s)) names.
Definition ParamFrame_setitem (col : string) (s : list (string * float))
    (f : ParamFrame) : ParamFrame :=
  {| frame_index := frame_index f;
     frame_columns :=
       assoc_set col (reindex (frame_index f) s) (frame_columns f) |}.

(** [frame[col] = [v1, ..., vn]] for a plain list: positional, and the
    length must be that of the index. *)
Definition ParamFrame_setlist (col : string) (vs : list float)
    (f : ParamFrame) : M ParamFrame :=
  if Nat.eqb (length vs) (length (frame_index f)) then
    ret {| frame_index := frame_index f;
           frame_columns := assoc_set col vs (frame_columns f) |}
  else raise (LibraryError "Length of values does not match length of index").

(** [frame.T]. *)
Definition ParamFrame_T (f : ParamFrame) : ParamFrame :=
  {| frame_index := map fst (frame_columns f);
     frame_columns :=
       imap (fun i name =>
               (name, map (fun c => default NaN (snd c !! i)) (frame_columns f)))
            (frame_index f) |}.

(** [Series(values, index=x)]: the index and the values must have the same
    length. *)
Definition Series_with_index (x : Series) (vs : list float) : M Series :=
  if Nat.eqb (length vs) (Series_size x) then ret (Series_of vs)
  else raise (LibraryError "Index length did not match values").

(** The rows a Series has, one flag per row of the table, and the union of
    two sets of rows. *)
Definition Series_rows (s : Series) : list bool :=
  map (fun o => match o with Some _ => true | None => false end) s.
Fixpoint union_rows (a b : list bool) : list bool :=
  match a, b with
  | [], _ => b
  | _, [] => a
  | u :: a', v :: b' => (u || v) :: union_rows a' b'
  end.

(** [s.reindex(rows)]: a row of [rows] that [s] lacks gets NaN, a row of
    [s] outside [rows] is dropped. *)
Fixpoint Series_reindex (rows : list bool) (s : Series) : Series :=
  match rows with
  | [] => []
  | r :: rows' =>
      (if r then Some (default NaN (head s ≫= id)) else None)
      :: Series_reindex rows' (tail s)
  end.

(** [pd.concat(d, axis=1)] of a dict of Series: one column per key, over
    the union of the indexes of the Series, each Series reindexed on that
    union; there must be at least one Series. *)
Definition concat_index (d : gmap string Series) : list bool :=
  map_fold (fun _ s rows => union_rows (Series_rows s) rows) [] d.
Definition concat_table (d : gmap string Series) : gmap string Series :=
  Series_reindex (concat_index d) <$> d.
Definition concat (d : gmap string Series) : M (gmap string Series) :=
  if decide (d = ∅) then raise (LibraryError "No objects to concatenate")
  else ret (concat_table d).

(** ** The class Result (fitting.py lines 27-58)

    An instance is its attribute dictionary.  The class declares four
    properties; each getter is a function of the arguments written in its
    [def], and an attribute read calls it with the instance alone.

    The module is Python 2 and [class Result:] has no base, so it is a
    classic class: an assignment [r.a = v] always writes the instance
    dictionary and a read looks there first ([Classic]).  [NewStyle] is the
    same class read as deriving from [object], where a property intercepts
    both the assignment and the read. *)

Inductive pyval :=
| VFrame (f : ParamFrame)
| VTable (t : gmap string Series)
| VModel (m : float -> option float).

Definition instance := gmap string pyval.

Record property := {
  fget_arity : nat;      (* parameters of the getter's [def] *)
  fget_field : string;   (* the attribute the getter returns *)
  fset_field : string    (* the attribute the setter assigns *)
}.

Definition Result : list (string * property) :=
  [ ("values",   {| fget_arity := 1; fget_field := "_values";
                    fset_field := "_values" |});
    ("stderr",   {| fget_arity := 1; fget_field := "_stderr";
                    fset_field := "_stderr" |});
    ("residual", {| fget_arity := 2; fget_field := "_residual";
                    fset_field := "_residual" |});
    ("fits",     {| fget_arity := 2; fget_field := "_fits";
                    fset_field := "_fits" |}) ].

Inductive class_style := Classic | NewStyle.

(** [r.name = v]. *)
Definition setattr (style : class_style) (name : string) (v : pyval)
    (r : instance) : instance :=
  match style, assoc_get name Result with
  | NewStyle, Some pr => <[fset_field pr := v]> r
  | _, _ => <[name := v]> r
  end.

(** The property's getter called with the instance as its only argument. *)
Definition fget (pr : property) (r : instance) : outcome pyval :=
  if Nat.eqb (fget_arity pr) 1 then
    match r !! fget_field pr with
    | Some v => Ok v
    | None => Raise (AttributeError (fget_field pr))
    end
  else Raise TypeError.

(** [r.name]. *)
Definition getattr (style : class_style) (name : string) (r : instance)
  : outcome pyval :=
  match style with
  | Classic =>
      match r !! name with
      | Some v => Ok v
      | None =>
          match assoc_get name Result with
          | Some pr => fget pr r
          | None => Raise (AttributeError name)
          end
      end
  | NewStyle =>
      match assoc_get name Result with
      | Some pr => fget pr r
      | None =>
          match r !! name with
          | Some v => Ok v
          | None => Raise (AttributeError name)
          end
      end
  end.

(** ** The fitting functions *)

(** [params]: a Parameters object, or a function from a column's data to
    one ([hasattr(params, '__call__')]). *)
Inductive ParamSpec :=
| Static (p : Parameters)
| Callable (g : Series -> Parameters).

(** The variables the loop of [NLS] assigns. *)
Record loop_state := {
  st_values : ParamFrame;
  st_stderr : ParamFrame;
  st_residuals : gmap string Series;
  st_fits : gmap string Series;
  st_result : option Minimizer
}.

Section Fitting.

(** numpy: natural logarithm, exponential and power on float64. *)
Variable np_log : float -> float.
Variable np_exp : float -> float.
Variable np_pow : float -> float -> float.

(** [lmfit.minimize(fcn, params, args)]: the solver sees the objective
    [fun q => fcn(q, *args)] and the initial parameters.  A fit that does
    not converge is returned like any other, with [success] unset. *)
Variable minimize : (Parameters -> list float) -> Parameters -> Minimizer.

(** [scipy.stats.linregress(x, y)]: slope and intercept (the three other
    results are not used), or an exception. *)
Variable linregress : list float -> list float -> outcome (float * float).

(** The Python reading of [class Result:]. *)
Variable style : class_style.

Section NLS.

Variable model_func : float -> Parameters -> float.
Variable params : ParamSpec.
Variable log_residual inverted_model : bool.

(** [params(y)] when [params] is callable, [params] itself otherwise. *)
Definition resolve_params (y : Series) : M Parameters :=
  match params with
  | Callable g => emit (EvParams y) ;; ret (g y)
  | Static p => ret p
  end.

(** [lmfit.minimize(residual_func, p, args=(a, b, weights))]. *)
Definition call_minimize (p : Parameters) (a b : Series)
    (weights : option Series) : M Minimizer :=
  emit (EvMinimize p a b weights) ;;
  ret (minimize
         (fun q => residual_func np_log model_func log_residual q a b weights)
         p).

(** One turn of the loop, lines 121-139. *)
Definition NLS_column (x : Series) (weights : option Series)
    (st : loop_state) (c : string * list float) : M loop_state :=
  let col := fst c in
  let y := Series_dropna true (Series_of (snd c)) in
  p <- resolve_params y ;;
  result <- (if negb inverted_model
             then call_minimize p x y weights
             else call_minimize p y x weights) ;;
  let result_params := lmfit.params result in
  let values :=
    ParamFrame_setitem col
      (map (fun kv => (fst kv, lmfit.value (snd kv))) result_params)
      (st_values st) in
  let stderr :=
    ParamFrame_setitem col
      (map (fun kv => (fst kv, lmfit.stderr (snd kv))) result_params)
      (st_stderr st) in
  r <- Series_with_index x (lmfit.residual result) ;;
  let residuals := <[col := r]> (st_residuals st) in
  let fits :=
    if negb inverted_model
    then <[col := Series_apply (fun x => model_func x (lmfit.params result)) x]>
           (st_fits st)
    else <[col := Series_apply (fun y => model_func y (lmfit.params result)) y]>
           (st_fits st) in
  ret {| st_values := values; st_stderr := stderr;
         st_residuals := residuals; st_fits := fits;
         st_result := Some result |}.

(** The body of [NLS] with [plot] as its last argument; [data] is taken
    to be a DataFrame already, so [ys] on line 107 is [data]. *)
Definition NLS (data : DataFrame) (weights : option (list float))
    (plot : bool) : M instance :=
  let ys := data in
  let x := Series_of (index data) in
  weights <-
    match weights with
    | Some w =>
        py_assert (Nat.eqb (length w) (Series_size x))
          "weights must be an array-like sequence the same length as data." ;;
        ret (Some (Series_of w))
    | None => ret None
    end ;;
  p <- match params with
       | Callable g =>
           y0 <- icol0 ys ;; emit (EvParams y0) ;; ret (g y0)
       | Static p => ret p
       end ;;
  let values := ParamFrame_new (lmfit.keys p) in
  let stderr := ParamFrame_new (lmfit.keys p) in
  st <- foldM (NLS_column x weights)
          {| st_values := values; st_stderr := stderr;
             st_residuals := ∅; st_fits := ∅; st_result := None |}
          (columns ys) ;;
  let r : instance := ∅ in
  let r := setattr style "values" (VFrame (ParamFrame_T (st_values st))) r in
  let r := setattr style "stderr" (VFrame (ParamFrame_T (st_stderr st))) r in
  residuals <- concat (st_residuals st) ;;
  let r := setattr style "residuals" (VTable residuals) r in
  fits <- concat (st_fits st) ;;
  let r := setattr style "fits" (VTable fits) r in
  let r :=
    setattr style "model"
      (VModel (fun x =>
                 result ← st_result st;
                 Some (model_func x (lmfit.params result)))) r in
  (if plot then
     v <- lift (getattr style "fits" r) ;;
     match v with
     | VTable fits => emit (EvPlot fits)
     | _ => ret tt
     end
   else ret tt) ;;
  ret r.

End NLS.

(** One turn of the loop of [fit_powerlaw], lines 158-164; no pandas
    option is set here, so only NaN is missing. *)
Definition fit_powerlaw_column (x : Series)
    (st : ParamFrame * gmap string Series) (c : string * list float)
  : M (ParamFrame * gmap string Series) :=
  let col := fst c in
  let y := Series_dropna false (Series_of (snd c)) in
  si <- lift (linregress (Series_values (Series_apply np_log x))
                         (Series_values (Series_apply np_log y))) ;;
  let slope := fst si in
  let intercept := snd si in
  emit (EvPrint slope intercept) ;;
  values <- ParamFrame_setlist col [slope; np_exp intercept] (fst st) ;;
  let fits :=
    <[col := Series_apply
               (fun x => PrimFloat.mul (np_exp intercept) (np_pow x slope)) x]>
      (snd st) in
  ret (values, fits).

Definition fit_powerlaw (data : DataFrame) (plot : bool) : M ParamFrame :=
  let ys := data in
  let x := Series_of (index data) in
  let values := ParamFrame_new ["n"; "A"] in
  st <- foldM (fit_powerlaw_column x) (values, ∅) (columns ys) ;;
  let values := ParamFrame_T (fst st) in
  fits <- concat (snd st) ;;
  (if plot then emit (EvPlot fits) else ret tt) ;;
  ret values.

End Fitting.


(** * Vocabulary of the properties *)

(** Two Series that, between them, have every row of the table. *)
Definition covers (a b : Series) : Prop :=
  Forall2 (fun u v => is_Some u \/ is_Some v) a b.


Section ResidualSpec.

Variable np_log : float -> float.
Variable model_func : float -> Parameters -> float.

(** The residual of one row before missing values are filled: the
    difference when the row has both an x and a y, NaN otherwise. *)
Definition raw_residual (log_residual : bool) (p : Parameters)
    (u v : option float) : float :=
  match u, v with
  | Some xv, Some yv =>
      if log_residual
      then PrimFloat.sub (np_log yv) (np_log (model_func xv p))
      else PrimFloat.sub yv (model_func xv p)
  | _, _ => NaN
  end.


(** The specification's words for the log-space residual (section 4.1):
    [log(observed) - log(predicted)], and "non-finite results are replaced
    by the mean of the finite residuals". *)
Definition finite (v : float) : bool :=
  negb (PrimFloat.is_nan v) && negb (PrimFloat.is_infinity v).
Definition mean_of_finite (l : list float) : float :=
  match List.filter finite l with
  | [] => NaN
  | vs => PrimFloat.div (sum vs) (of_nat (length vs))
  end.
Definition log_difference (p : Parameters) (u v : option float) : float :=
  match u, v with
  | Some xv, Some yv => PrimFloat.sub (np_log yv) (np_log (model_func xv p))
  | _, _ => NaN
  end.
Definition spec_log_residual (p : Parameters) (x y : Series) : list float :=
  let d := zip_with (log_difference p) x y in
  map (fun v => if finite v then v else mean_of_finite d) d.

End ResidualSpec.

Section NLSVocabulary.

Variable style : class_style.
Variable model_func : float -> Parameters -> float.
Variable params : ParamSpec.
Variable inverted_model : bool.

(** The parameters the loop resolves for a column's cleaned data. *)
Definition resolved (y : Series) : Parameters :=
  match params with
  | Callable g => g y
  | Static p => p
  end.

(** What one turn of the loop calls: the factory, when there is one, with
    the cleaned column, then the solver. *)
Definition column_trace (x : Series) (weights : option Series)
    (c : string * list float) : list event :=
  let y := Series_dropna true (Series_of (snd c)) in
  match params with
  | Callable _ => [EvParams y]
  | Static _ => []
  end ++
  [if negb inverted_model
   then EvMinimize (resolved y) x y weights
   else EvMinimize (resolved y) y x weights].

(** The sample parameters that index the result tables (lines 113-116):
    from the first column as it is when [params] is callable. *)
Definition sample_params (data : DataFrame) : Parameters :=
  match params with
  | Callable g =>
      match columns data with
      | (_, vs) :: _ => g (Series_of vs)
      | [] => []
      end
  | Static p => p
  end.
Definition sample_trace (data : DataFrame) : list event :=
  match params, columns data with
  | Callable _, (_, vs) :: _ => [EvParams (Series_of vs)]
  | _, _ => []
  end.

(** The loop's variables before the first turn (lines 117-120). *)
Definition initial_state (data : DataFrame) : loop_state :=
  {| st_values := ParamFrame_new (lmfit.keys (sample_params data));
     st_stderr := ParamFrame_new (lmfit.keys (sample_params data));
     st_residuals := ∅; st_fits := ∅; st_result := None |}.

(** The Result that lines 141-146 build from the loop's variables. *)
Definition assemble (st : loop_state) : instance :=
  setattr style "model"
    (VModel (fun x =>
               result ← st_result st;
               Some (model_func x (lmfit.params result))))
    (setattr style "fits" (VTable (concat_table (st_fits st)))
       (setattr style "residuals" (VTable (concat_table (st_residuals st)))
          (setattr style "stderr" (VFrame (ParamFrame_T (st_stderr st)))
             (setattr style "values" (VFrame (ParamFrame_T (st_values st)))
                ∅)))).

(** The call of the plotting module on line 149. *)
Definition plot_trace (plot : bool) (st : loop_state) : list event :=
  if plot then
    match getattr style "fits" (assemble st) with
    | Ok (VTable fits) => [EvPlot fits]
    | _ => []
    end
  else [].

End NLSVocabulary.

(** A solver that behaves as [minimize] but reports convergence as [b],
    and the loop's variables after it. *)
Definition reported (b : bool) (result : Minimizer) : Minimizer :=
  {| lmfit.params := lmfit.params result;
     lmfit.residual := lmfit.residual result;
     lmfit.success := b |}.
Definition report (b : bool)
    (minimize : (Parameters -> list float) -> Parameters -> Minimizer)
    (fcn : Parameters -> list float) (p : Parameters) : Minimizer :=
  reported b (minimize fcn p).
Definition reported_state (b : bool) (st : loop_state) : loop_state :=
  {| st_values := st_values st; st_stderr := st_stderr st;
     st_residuals := st_residuals st; st_fits := st_fits st;
     st_result := reported b <$> st_result st |}.
Definition map_outcome {A B} (f : A -> B) (m : M A) : M B :=
  (match fst m with Ok a => Ok (f a) | Raise e => Raise e end, snd m).

(** The check of line 110. *)
Definition weights_ok (data : DataFrame) (weights : option (list float))
  : bool :=
  match weights with
  | Some w => Nat.eqb (length w) (length (index data))
  | None => true
  end.

Section PowerlawVocabulary.

Variable np_log : float -> float.
Variable np_exp : float -> float.
Variable np_pow : float -> float -> float.
Variable linregress : list float -> list float -> outcome (float * float).

(** The regression [fit_powerlaw] asks for on one column (line 160): the
    logarithms of the whole x-axis against those of the column's values
    that are not NaN. *)
Definition regression (x : Series) (c : string * list float)
  : outcome (float * float) :=
  linregress
    (Series_values (Series_apply np_log x))
    (Series_values
       (Series_apply np_log (Series_dropna false (Series_of (snd c))))).

(** The fitted curve [A * x^n] of a column over the Series [x]. *)
Definition curve (x : Series) (si : float * float) : Series :=
  Series_apply
    (fun x => PrimFloat.mul (np_exp (snd si)) (np_pow x (fst si))) x.

(** The dictionary [fits] after the loop. *)
Definition curves (x : Series) (fits : gmap string Series)
    (cols : list (string * list float)) (rs : list (float * float))
  : gmap string Series :=
  foldl (fun m cr => <[fst (fst cr) := curve x (snd cr)]> m) fits
    (zip cols rs).

End PowerlawVocabulary.

(** The calls of the parameter factory and of the solver in a trace. *)
Definition params_calls (tr : list event) : list Series :=
  omap (fun ev => match ev with EvParams y => Some y | _ => None end) tr.
Definition minimize_calls (tr : list event)
  : list (Parameters * Series * Series * option Series) :=
  omap (fun ev => match ev with
                  | EvMinimize p a b w => Some (p, a, b, w)
                  | _ => None
                  end) tr.

Section AggregationVocabulary.

Variable np_log : float -> float.
Variable minimize : (Parameters -> list float) -> Parameters -> Minimizer.
Variable model_func : float -> Parameters -> float.
Variable params : ParamSpec.
Variable log_residual inverted_model : bool.

(** What the solver returns for one column (lines 122-131). *)
Definition column_result (x : Series) (weights : option Series)
    (c : string * list float) : Minimizer :=
  let y := Series_dropna true (Series_of (snd c)) in
  if negb inverted_model
  then minimize
         (fun q => residual_func np_log model_func log_residual q x y weights)
         (resolved params y)
  else minimize
         (fun q => residual_func np_log model_func log_residual q y x weights)
         (resolved params y).

(** The fitted curve of one column (lines 136-139). *)
Definition column_fit (x : Series) (weights : option Series)
    (c : string * list float) : Series :=
  let y := Series_dropna true (Series_of (snd c)) in
  let result := column_result x weights c in
  if negb inverted_model
  then Series_apply (fun x => model_func x (lmfit.params result)) x
  else Series_apply (fun y => model_func y (lmfit.params result)) y.

(** The loop's variables after a turn that returned. *)
Definition column_step (x : Series) (weights : option Series)
    (st : loop_state) (c : string * list float) : loop_state :=
  let result := column_result x weights c in
  {| st_values :=
       ParamFrame_setitem (fst c)
         (map (fun kv => (fst kv, lmfit.value (snd kv))) (lmfit.params result))
         (st_values st);
     st_stderr :=
       ParamFrame_setitem (fst c)
         (map (fun kv => (fst kv, lmfit.stderr (snd kv))) (lmfit.params result))
         (st_stderr st);
     st_residuals :=
       <[fst c := Series_of (lmfit.residual result)]> (st_residuals st);
     st_fits := <[fst c := column_fit x weights c]> (st_fits st);
     st_result := Some result |}.

End AggregationVocabulary.

(** The value a column has at a row, when it is not missing, and whether
    some column of the table has a value at the row. *)
Definition observed (c : string * list float) (k : nat) : option float :=
  Series_dropna true (Series_of (snd c)) !! k ≫= id.
Definition row_observed (data : DataFrame) (k : nat) : bool :=
  existsb (fun c => match observed c k with Some _ => true | None => false end)
    (columns data).

(** The calls of the plotting module in a trace. *)
Definition plot_calls (tr : list event) : list (gmap string Series) :=
  omap (fun ev => match ev with EvPlot fits => Some fits | _ => None end) tr.

Section DifferenceVocabulary.

Variable np_log : float -> float.
Variable model_func : float -> Parameters -> float.
Variable log_residual : bool.

(** The difference of one complete row: observed minus predicted, in log
    space when [log_residual] is set. *)
Definition difference (q : Parameters) (xv yv : float) : float :=
  if log_residual
  then PrimFloat.sub (np_log yv) (np_log (model_func xv q))
  else PrimFloat.sub yv (model_func xv q).

End DifferenceVocabulary.

(** * A concrete environment for the examples

    Stand-ins for the external functions, used only to run the module on
    concrete tables.  The numpy functions are tabulated at the arguments the
    examples reach, with numpy's values there (NaN below zero and at NaN,
    minus infinity at zero, the correctly rounded logarithm of 2); any other
    argument is outside the table and gives NaN. *)

Module Sample.

Definition ln2 : float := 0x1.62e42fefa39efp-1%float.

Definition log (v : float) : float :=
  if PrimFloat.is_nan v then NaN
  else if PrimFloat.ltb v 0 then NaN
  else if PrimFloat.eqb v 0 then PrimFloat.neg_infinity
  else if PrimFloat.eqb v 1 then 0%float
  else if PrimFloat.eqb v 2 then ln2
  else if PrimFloat.eqb v PrimFloat.infinity then PrimFloat.infinity
  else NaN.

Definition exp (v : float) : float :=
  if PrimFloat.is_nan v then NaN
  else if PrimFloat.eqb v 0 then 1%float
  else if PrimFloat.eqb v PrimFloat.neg_infinity then 0%float
  else if PrimFloat.eqb v PrimFloat.infinity then PrimFloat.infinity
  else NaN.

Definition pow (x n : float) : float :=
  if PrimFloat.is_nan x || PrimFloat.is_nan n then NaN
  else if PrimFloat.eqb n 1 then x
  else if PrimFloat.eqb n 0 then 1%float
  else NaN.

(** A solver that stops at once: it evaluates the objective at the initial
    parameters and returns them, reporting [converged]. *)
Definition minimize (converged : bool) (fcn : Parameters -> list float)
    (p : Parameters) : Minimizer :=
  {| lmfit.params := p; lmfit.residual := fcn p; lmfit.success := converged |}.

(** Least squares on two samples of equal length, as [linregress] computes
    slope and intercept: from the means and the (biased) covariances. *)
Definition mean (l : list float) : float :=
  PrimFloat.div (sum l) (of_nat (length l)).
Definition linregress (x y : list float) : outcome (float * float) :=
  if Nat.eqb (length x) (length y) then
    let xmean := mean x in
    let ymean := mean y in
    let dx := map (fun v => PrimFloat.sub v xmean) x in
    let dy := map (fun v => PrimFloat.sub v ymean) y in
    let ssxm := mean (zip_with PrimFloat.mul dx dx) in
    let ssxym := mean (zip_with PrimFloat.mul dx dy) in
    let slope := PrimFloat.div ssxym ssxm in
    let intercept := PrimFloat.sub ymean (PrimFloat.mul slope xmean) in
    Ok (slope, intercept)
  else Raise (LibraryError "all the input array dimensions must match").

(** The model [y = a * x] with one parameter [a]. *)
Definition line (x : float) (p : Parameters) : float :=
  match assoc_get "a" p with
  | Some a => PrimFloat.mul (lmfit.value a) x
  | None => NaN
  end.
Definition a1 : Parameters :=
  [("a", {| lmfit.value := 1; lmfit.stderr := NaN |})].

(** Rows x = 1, 2, 3; column [u] lacks its value at x = 2. *)
Definition gap : DataFrame :=
  {| index := [1; 2; 3]%float;
     columns := [("u", [2; NaN; 6]%float); ("v", [1; 2; 3]%float)] |}.

(** Rows x = 1, 2; column [u] has no value at all. *)
Definition hollow : DataFrame :=
  {| index := [1; 2]%float; columns := [("u", [NaN; NaN])] |}.

(** The exact power law y = x sampled at x = 1, 2. *)
Definition diagonal : DataFrame :=
  {| index := [1; 2]%float; columns := [("u", [1; 2]%float)] |}.

(** A negative y at x = 1. *)
Definition negative : DataFrame :=
  {| index := [1; 2]%float; columns := [("u", [-1; 2]%float)] |}.

Definition empty : DataFrame := {| index := [1; 2]%float; columns := [] |}.

(** What a computation returned, [d] if it raised. *)
Definition returned {A} (m : M A) (d : A) : A :=
  match fst m with
  | Ok a => a
  | Raise _ => d
  end.

(** [NLS(gap, line, a1, plot=False)] with the solver that stops at once. *)
Definition fit_gap (style : class_style) : M instance :=
  NLS log (minimize true) style line (Static a1) false false gap None false.

(** The same call with a factory that ignores its argument. *)
Definition fit_gap_callable (style : class_style) : M instance :=
  NLS log (minimize true) style line (Callable (fun _ => a1)) false false
    gap None false.

(** The same table fitted with the model read as x(y). *)
Definition fit_gap_inverted : M instance :=
  NLS log (minimize true) Classic line (Static a1) false true gap None false.

End Sample.

(** * Properties *)

(** ** Numbers *)

(** Multiplying a binary64 value by 1.0 is exact; derived from the
    specification of the kernel's multiplication. *)
Lemma SFmul_one_r (s : spec_float) :
  valid_binary s = true ->
  SFmul prec emax s (S754_finite false 4503599627370496 (-52)) = s.
Proof.
  destruct s as [sx | sx | | sx mx ex]; simpl; intros Hv;
    try (rewrite xorb_false_r; reflexivity); try reflexivity.
  rewrite xorb_false_r.
  unfold bounded, canonical_mantissa in Hv.
  apply andb_prop in Hv as [Hc Hb].
  apply Z.eqb_eq in Hc.
  rewrite Pos.mul_comm.
  change (4503599627370496 * mx)%positive with
    (mx~0~0~0~0~0~0~0~0~0~0~0~0~0~0~0~0~0~0~0~0~0~0~0~0~0~0
       ~0~0~0~0~0~0~0~0~0~0~0~0~0~0~0~0~0~0~0~0~0~0~0~0~0~0)%positive.
  unfold binary_round_aux, shr_fexp.
  set (m := Z.pos _).
  assert (Hd : Zdigits2 m = (Z.pos (digits2_pos mx) + 52)%Z).
  { subst m. unfold Zdigits2. cbn [digits2_pos]. lia. }
  rewrite Hd.
  replace (Z.pos (digits2_pos mx) + 52 + (ex + -52))%Z
    with (Z.pos (digits2_pos mx) + ex)%Z by lia.
  rewrite Hc.
  replace (ex - (ex + -52))%Z with 52%Z by lia.
  subst m.
  cbn [shr shr_record_of_loc SpecFloat.iter_pos shr_1 shr_m shr_r shr_s orb
         loc_of_shr_record round_nearest_even].
  replace (ex + -52 + 52)%Z with ex by lia.
  unfold Zdigits2. rewrite Hc, Z.sub_diag.
  cbn [shr shr_record_of_loc shr_m].
  rewrite Hb. reflexivity.
Qed.

Lemma mul_one_r (x : float) : PrimFloat.mul x one = x.
Proof.
  apply Prim2SF_inj. rewrite FloatAxioms.mul_spec.
  change (Prim2SF one) with (S754_finite false 4503599627370496 (-52)).
  apply SFmul_one_r, Prim2SF_valid.
Qed.

(** ** The monad *)

Lemma bind_Ok {A B} (a : A) (t : list event) (k : A -> M B) :
  bind (Ok a, t) k = (fst (k a), t ++ snd (k a)).
Proof. unfold bind. destruct (k a); reflexivity. Qed.

Lemma bind_Raise {A B} (e : exn) (t : list event) (k : A -> M B) :
  bind (Raise e, t) k = (Raise e, t).
Proof. reflexivity. Qed.

Lemma bind_Ok_inv {A B} (m : M A) (k : A -> M B) (b : B) (t : list event) :
  bind m k = (Ok b, t) ->
  exists a t1 t2, m = (Ok a, t1) /\ k a = (Ok b, t2) /\ t = t1 ++ t2.
Proof.
  destruct m as [[a | e] t1]; simpl; [| discriminate].
  destruct (k a) as [r t2] eqn:Hk. intros [= -> <-].
  exists a, t1, t2. by rewrite Hk.
Qed.

Lemma bind_trace {A B} (m : M A) (k : A -> M B) :
  exists t2, snd (bind m k) = snd m ++ t2.
Proof.
  destruct m as [[a | e] t1]; simpl.
  - destruct (k a) as [r t2]. eauto.
  - exists []. by rewrite app_nil_r.
Qed.

Lemma bind_ext {A B} (m : M A) (k k' : A -> M B) :
  (forall a, k a = k' a) -> bind m k = bind m k'.
Proof. intros Hk. destruct m as [[a | e] t]; simpl; by rewrite ?Hk. Qed.

Lemma bind_silent {A B} (m : M A) (k : A -> M B) :
  (forall a, snd (k a) = []) -> snd (bind m k) = snd m.
Proof.
  intros Hk. destruct m as [[a | e] t]; simpl; [| done].
  specialize (Hk a). destruct (k a) as [r t2]. simpl in *. subst.
  by rewrite app_nil_r.
Qed.

(** ** Series *)

Lemma map_lookup {A B} (f : A -> B) (l : list A) (k : nat) :
  map f l !! k = f <$> (l !! k).
Proof. exact (list_lookup_fmap f l k). Qed.

Lemma Series_values_of (vs : list float) : Series_values (Series_of vs) = vs.
Proof.
  unfold Series_values, Series_of.
  induction vs as [| v vs IH]; simpl; [done | by f_equal].
Qed.

Lemma Series_apply_of (g : float -> float) (vs : list float) :
  Series_apply g (Series_of vs) = Series_of (map g vs).
Proof. unfold Series_apply, Series_of. by rewrite !map_map. Qed.

Lemma Series_index_from_of (vs : list float) (i : nat) :
  Series_index_from i (Series_of vs) = seq i (length vs).
Proof.
  unfold Series_of. revert i.
  induction vs as [| v vs IH]; intros i; cbn; [done |]. by rewrite IH.
Qed.

Lemma Series_size_of (vs : list float) : Series_size (Series_of vs) = length vs.
Proof. unfold Series_size. by rewrite Series_values_of. Qed.

Lemma Series_fillna_of (b : bool) (m : float) (vs : list float) :
  Series_fillna b m (Series_of vs) = Series_of (map (fill b m) vs).
Proof.
  unfold Series_fillna, Series_of. rewrite !map_map. reflexivity.
Qed.

Lemma Series_mean_of (b : bool) (vs : list float) :
  Series_mean b (Series_of vs) = nanmean b vs.
Proof. unfold Series_mean. by rewrite Series_values_of. Qed.

Lemma covers_of_l (vs : list float) (s : Series) :
  length s = length vs -> covers (Series_of vs) s.
Proof.
  unfold covers, Series_of. revert s.
  induction vs as [| v vs IH]; intros [| o s] Hl; simplify_eq/=; constructor; eauto.
Qed.

Lemma covers_of_r (vs : list float) (s : Series) :
  length s = length vs -> covers s (Series_of vs).
Proof.
  unfold covers, Series_of. revert s.
  induction vs as [| v vs IH]; intros [| o s] Hl; simplify_eq/=; constructor; eauto.
Qed.

Lemma covers_length (a b : Series) : covers a b -> length a = length b.
Proof. apply Forall2_length. Qed.

Lemma Series_dropna_length (b : bool) (s : Series) :
  length (Series_dropna b s) = length s.
Proof. unfold Series_dropna. by rewrite length_map. Qed.

(** A missing value leaves its row without a slot in the cleaned column. *)
Lemma Series_dropna_lookup_null (vs : list float) (k : nat) (v : float) :
  vs !! k = Some v -> isnull true v = true ->
  Series_dropna true (Series_of vs) !! k = Some None.
Proof.
  intros Hk Hv. unfold Series_dropna, Series_of.
  rewrite !map_lookup, Hk. simpl. by rewrite Hv.
Qed.

(** Multiplying a Series that has every row by a weight of 1.0 per row. *)
Lemma Series_mul_ones (vs : list float) :
  Series_mul (Series_of vs) (Series_of (replicate (length vs) one)) = Series_of vs.
Proof.
  unfold Series_mul, Series_binop, Series_of.
  induction vs as [| v vs IH]; simpl; [done |].
  by rewrite IH, mul_one_r.
Qed.

(** ** Concatenation *)

Lemma union_rows_nil_r (a : list bool) : union_rows a [] = a.
Proof. by destruct a. Qed.

Lemma union_rows_length (a b : list bool) :
  length a = length b -> length (union_rows a b) = length a.
Proof.
  revert b. induction a as [| u a IH]; intros [| v b] Hl; simplify_eq/=; auto.
Qed.

Lemma union_rows_lookup (a b : list bool) (k : nat) :
  length a = length b ->
  union_rows a b !! k = (a !! k) ≫= fun u => (b !! k) ≫= fun v => Some (u || v).
Proof.
  revert b k. induction a as [| u a IH]; intros [| v b] k Hl; simplify_eq/=.
  - done.
  - destruct k as [| k]; [done |]. cbn. by apply IH.
Qed.

Lemma Series_rows_length (s : Series) : length (Series_rows s) = length s.
Proof. unfold Series_rows. by rewrite length_map. Qed.

Lemma Series_rows_lookup (s : Series) (k : nat) :
  Series_rows s !! k
  = (fun o : option float => match o with Some _ => true | None => false end)
      <$> s !! k.
Proof. unfold Series_rows. apply map_lookup. Qed.

Lemma Series_reindex_length (rows : list bool) (s : Series) :
  length (Series_reindex rows s) = length rows.
Proof.
  revert s. induction rows as [| r rows IH]; intros s; cbn; [done |].
  by rewrite IH.
Qed.

Lemma Series_reindex_lookup (rows : list bool) (s : Series) (k : nat) :
  Series_reindex rows s !! k
  = (fun r : bool => if r then Some (default NaN (s !! k ≫= id)) else None)
      <$> rows !! k.
Proof.
  revert s k. induction rows as [| r rows IH]; intros s k; [done |].
  destruct k as [| k]; cbn.
  - by destruct s.
  - rewrite IH. by destruct s.
Qed.

Lemma Series_reindex_of (vs : list float) :
  Series_reindex (replicate (length vs) true) (Series_of vs) = Series_of vs.
Proof.
  unfold Series_of. induction vs as [| v vs IH]; cbn; [done |]. by rewrite IH.
Qed.

Lemma concat_index_fold (n : nat) (d : gmap string Series) :
  map_Forall (fun _ s => length s = n) d ->
  (d = ∅ -> concat_index d = []) /\
  (d <> ∅ ->
   length (concat_index d) = n /\
   forall k,
     concat_index d !! k = Some true <->
     exists l s v, d !! l = Some s /\ s !! k = Some (Some v)).
Proof.
  unfold concat_index.
  apply (map_fold_weak_ind
           (fun rows (m : gmap string Series) =>
              map_Forall (fun _ s => length s = n) m ->
              (m = ∅ -> rows = []) /\
              (m <> ∅ ->
               length rows = n /\
               forall k,
                 rows !! k = Some true <->
                 exists l s v, m !! l = Some s /\ s !! k = Some (Some v))));
    [done |].
  intros l s m rows Hl IH Hall.
  apply map_Forall_insert in Hall as [Hs Hall]; [| done].
  destruct (IH Hall) as [IH0 IH1]. clear IH.
  split; [intros He; by apply insert_non_empty in He |]. intros _.
  destruct (decide (m = ∅)) as [-> | Hne].
  - rewrite (IH0 eq_refl), union_rows_nil_r, Series_rows_length.
    split; [done |]. intros k. rewrite Series_rows_lookup. split.
    + destruct (s !! k) as [[v |] |] eqn:Hk; [| done ..]. intros _.
      exists l, s, v. by rewrite lookup_insert_eq.
    + intros (l' & s' & v & Hl' & Hk).
      apply lookup_insert_Some in Hl' as [[_ <-] | [_ Hl']];
        [by rewrite Hk | by rewrite lookup_empty in Hl'].
  - destruct (IH1 Hne) as [Hlen Hrows]. clear IH0 IH1.
    assert (Hlen' : length (Series_rows s) = length rows)
      by by rewrite Series_rows_length, Hs, Hlen.
    split; [by rewrite union_rows_length, Series_rows_length |].
    intros k. rewrite union_rows_lookup, Series_rows_lookup by done.
    split.
    + destruct (s !! k) as [[v |] |] eqn:Hk; cbn.
      * intros _. exists l, s, v. by rewrite lookup_insert_eq.
      * destruct (rows !! k) as [b |] eqn:Hb; [| done]. cbn.
        intros [= ->]. apply Hrows in Hb as (l' & s' & v & Hl' & Hk').
        exists l', s', v. split; [| done].
        rewrite lookup_insert_ne; [done | by intros <-; rewrite Hl in Hl'].
      * done.
    + intros (l' & s' & v & Hl' & Hk).
      assert (Hb : is_Some (rows !! k)).
      { apply lookup_lt_is_Some. rewrite Hlen, <- Hs.
        apply lookup_insert_Some in Hl' as [[_ <-] | [_ Hl']].
        - by eapply lookup_lt_Some.
        - rewrite Hs, <- (Hall _ _ Hl'). by eapply lookup_lt_Some. }
      destruct Hb as [b Hb].
      apply lookup_insert_Some in Hl' as [[_ <-] | [_ Hl']].
      * by rewrite Hk, Hb.
      * assert (Hs' : is_Some (s !! k)).
        { apply lookup_lt_is_Some. rewrite Hs, <- Hlen.
          by eapply lookup_lt_Some. }
        destruct Hs' as [o Ho]. rewrite Ho, Hb. cbn.
        assert (b = true) as ->.
        { assert (Ht : rows !! k = Some true)
            by (apply Hrows; by exists l', s', v).
          congruence. }
        by destruct o.
Qed.

(** A dictionary of Series that each have every row is unchanged. *)
Lemma concat_table_full (n : nat) (d : gmap string Series) :
  map_Forall (fun _ s => exists vs, s = Series_of vs /\ length vs = n) d ->
  concat_table d = d.
Proof.
  intros Hall. unfold concat_table.
  destruct (decide (d = ∅)) as [-> | Hne]; [by rewrite fmap_empty |].
  assert (Hlen : map_Forall (fun (_ : string) (s : Series) => length s = n) d).
  { intros l s Hl. destruct (Hall l s Hl) as (vs & -> & <-).
    unfold Series_of. by rewrite length_map. }
  destruct (concat_index_fold n d Hlen) as [_ H]. destruct (H Hne) as [Hn Hk].
  assert (Hrows : concat_index d = replicate n true).
  { apply list_eq. intros k. destruct (decide (k < n)) as [Hlt | Hge].
    - rewrite lookup_replicate_2 by done. apply Hk.
      destruct (map_choose d Hne) as (l & s & Hl).
      destruct (Hall l s Hl) as (vs & -> & <-).
      destruct (lookup_lt_is_Some_2 vs k Hlt) as [v Hv].
      exists l, (Series_of vs), v. split; [done |].
      unfold Series_of. by rewrite map_lookup, Hv.
    - rewrite !lookup_ge_None_2; [done | rewrite length_replicate; lia | lia]. }
  rewrite Hrows. apply map_eq. intros l. rewrite lookup_fmap.
  destruct (d !! l) as [s |] eqn:Hl; [| done]. cbn.
  destruct (Hall l s Hl) as (vs & -> & <-). by rewrite Series_reindex_of.
Qed.

Lemma concat_table_nonempty (d : gmap string Series) :
  d <> ∅ -> concat_table d <> ∅.
Proof. unfold concat_table. intros Hd He. by apply fmap_empty_inv in He. Qed.

(** ** The residual function *)

Section ResidualFacts.

Variable np_log : float -> float.
Variable model_func : float -> Parameters -> float.

Local Abbreviation raw_residual := (raw_residual np_log model_func).

Lemma aligned_difference (lr : bool) (p : Parameters) (x y : Series) :
  covers x y ->
  (if lr
   then Series_sub (Series_apply np_log y)
          (Series_apply np_log (Series_apply (fun x => model_func x p) x))
   else Series_sub y (Series_apply (fun x => model_func x p) x))
  = Series_of (zip_with (raw_residual lr p) x y).
Proof.
  unfold Series_sub, Series_binop, Series_apply, Series_of.
  induction 1 as [| u v x y Huv _ IH]; [by destruct lr |].
  destruct lr; simpl in *; rewrite IH; f_equal;
    destruct u, v; simpl; try reflexivity;
    destruct Huv as [[? [=]] | [? [=]]].
Qed.

(** Without weights the residual vector has one entry per row: the row's
    difference, or the mean of the non-null differences where the row's
    own is null. *)
Lemma residual_func_unweighted (lr : bool) (p : Parameters) (x y : Series) :
  covers x y ->
  residual_func np_log model_func lr p x y None =
  map (fill true (nanmean true (zip_with (raw_residual lr p) x y)))
      (zip_with (raw_residual lr p) x y).
Proof.
  intros Hc. unfold residual_func.
  pose proof (aligned_difference lr p x y Hc) as Hd.
  destruct lr; rewrite Hd, Series_mean_of, Series_fillna_of, Series_values_of;
    reflexivity.
Qed.

Lemma residual_func_weighted (lr : bool) (p : Parameters) (x y w : Series) :
  covers x y ->
  residual_func np_log model_func lr p x y (Some w) =
  Series_values
    (Series_mul
       (Series_of
          (map (fill true (nanmean true (zip_with (raw_residual lr p) x y)))
               (zip_with (raw_residual lr p) x y)))
       w).
Proof.
  intros Hc. unfold residual_func.
  pose proof (aligned_difference lr p x y Hc) as Hd.
  destruct lr; rewrite Hd, Series_mean_of, Series_fillna_of; reflexivity.
Qed.

Lemma raw_residual_length (lr : bool) (p : Parameters) (x y : Series) :
  covers x y -> length (zip_with (raw_residual lr p) x y) = length x.
Proof.
  intros Hc. rewrite length_zip_with. apply covers_length in Hc. lia.
Qed.

End ResidualFacts.

Lemma finite_notnull (v : float) : finite v = notnull true v.
Proof.
  unfold finite, notnull, isnull.
  destruct (PrimFloat.is_nan v), (PrimFloat.is_infinity v); reflexivity.
Qed.

Lemma mean_of_finite_nanmean (l : list float) :
  mean_of_finite l = nanmean true l.
Proof.
  unfold mean_of_finite, nanmean.
  rewrite (List.filter_ext finite (notnull true) finite_notnull). reflexivity.
Qed.

(** C7. With [log_residual] set (and no weights) the residual function
    returns, row by row, [log(observed) - log(predicted)] where that value
    is finite and the mean of the finite ones where it is not; a row that
    lacks its observation or its x has no finite value either. *)
Theorem log_residual_mean_substitution
    (np_log : float -> float) (model_func : float -> Parameters -> float)
    (p : Parameters) (x y : Series) :
  covers x y ->
  residual_func np_log model_func true p x y None
  = spec_log_residual np_log model_func p x y.
Proof.
  intros Hc. rewrite residual_func_unweighted by done.
  unfold spec_log_residual.
  change (raw_residual np_log model_func true p)
    with (log_difference np_log model_func p).
  rewrite mean_of_finite_nanmean.
  apply map_ext. intros v. unfold fill.
  rewrite finite_notnull. unfold notnull.
  by destruct (isnull true v).
Qed.

Lemma log_residual_mean_substitution_witness :
  covers (Series_of [1; 2; 1]%float) [Some 1; None; Some 0]%float /\
  residual_func Sample.log Sample.line true Sample.a1
    (Series_of [1; 2; 1]%float) [Some 1; None; Some 0]%float None
  = spec_log_residual Sample.log Sample.line Sample.a1
      (Series_of [1; 2; 1]%float) [Some 1; None; Some 0]%float.
Proof.
  assert (Hc : covers (Series_of [1; 2; 1]%float) [Some 1; None; Some 0]%float).
  { repeat constructor; eauto. }
  split; [exact Hc |].
  exact (log_residual_mean_substitution Sample.log Sample.line Sample.a1 _ _ Hc).
Defined.

(** C8. A weight of 1.0 on every row leaves the residual vector as it is
    without weights, whatever the parameters, x and y. *)
Theorem unit_weights_residual
    (np_log : float -> float) (model_func : float -> Parameters -> float)
    (log_residual : bool) (p : Parameters) (x y : Series) :
  covers x y ->
  residual_func np_log model_func log_residual p x y
    (Some (Series_of (replicate (length x) one)))
  = residual_func np_log model_func log_residual p x y None.
Proof.
  intros Hc.
  rewrite residual_func_weighted, residual_func_unweighted by done.
  rewrite <- (raw_residual_length np_log model_func log_residual p x y Hc).
  set (d := zip_with _ x y).
  rewrite <- (length_map (fill true (nanmean true d)) d).
  by rewrite Series_mul_ones, Series_values_of.
Qed.

Lemma unit_weights_residual_witness :
  covers (Series_of [1; 2; 3]%float) [Some 2; None; Some 6]%float /\
  residual_func Sample.log Sample.line false Sample.a1
    (Series_of [1; 2; 3]%float) [Some 2; None; Some 6]%float
    (Some (Series_of [1; 1; 1]%float))
  = residual_func Sample.log Sample.line false Sample.a1
      (Series_of [1; 2; 3]%float) [Some 2; None; Some 6]%float None.
Proof.
  assert (Hc : covers (Series_of [1; 2; 3]%float) [Some 2; None; Some 6]%float).
  { repeat constructor; eauto. }
  split; [exact Hc |].
  exact (unit_weights_residual Sample.log Sample.line false Sample.a1 _ _ Hc).
Defined.

(** ** Tables of fitted values *)

Lemma assoc_set_fresh {A} (k : string) (a : A) (l : list (string * A)) :
  k ∉ map fst l -> map fst (assoc_set k a l) = map fst l ++ [k].
Proof.
  induction l as [| [k' a'] l IH]; simpl; intros Hk; [done |].
  destruct (String.eqb_spec k k') as [-> | Hne].
  - exfalso. apply Hk. by left.
  - simpl. f_equal. apply IH. intros Hin. apply Hk. by right.
Qed.

Lemma imap_labels {B} (g : nat -> string -> B) (l : list string) :
  map fst (imap (fun i name => (name, g i name)) l) = l.
Proof.
  revert g. induction l as [| name l IH]; intros g; simpl; [done |].
  f_equal. apply (IH (fun i => g (S i))).
Qed.

Lemma ParamFrame_T_index (f : ParamFrame) :
  frame_index (ParamFrame_T f) = map fst (frame_columns f).
Proof. reflexivity. Qed.

Lemma ParamFrame_T_columns (f : ParamFrame) :
  map fst (frame_columns (ParamFrame_T f)) = frame_index f.
Proof. unfold ParamFrame_T. simpl. apply imap_labels. Qed.

(** ** The loop of NLS *)

Section NLSFacts.

Variable np_log : float -> float.
Variable minimize : (Parameters -> list float) -> Parameters -> Minimizer.
Variable style : class_style.
Variable model_func : float -> Parameters -> float.
Variable params : ParamSpec.
Variable log_residual inverted_model : bool.

Local Abbreviation NLS_column :=
  (NLS_column np_log minimize model_func params log_residual inverted_model).
Local Abbreviation NLS :=
  (NLS np_log minimize style model_func params log_residual inverted_model).
Local Abbreviation call_minimize :=
  (call_minimize np_log minimize model_func log_residual).
Local Abbreviation resolved := (resolved params).
Local Abbreviation column_trace := (column_trace params inverted_model).
Local Abbreviation sample_params := (sample_params params).
Local Abbreviation sample_trace := (sample_trace params).
Local Abbreviation initial_state := (initial_state params).
Local Abbreviation assemble := (assemble style model_func).
Local Abbreviation plot_trace := (plot_trace style model_func).

Lemma resolve_params_run (y : Series) :
  resolve_params params y =
  (Ok (resolved y),
   match params with Callable _ => [EvParams y] | Static _ => [] end).
Proof. unfold resolve_params, resolved. by destruct params. Qed.

Lemma call_minimize_run (p : Parameters) (a b : Series)
    (weights : option Series) :
  call_minimize p a b weights =
  (Ok (minimize
         (fun q => residual_func np_log model_func log_residual q a b weights)
         p),
   [EvMinimize p a b weights]).
Proof. reflexivity. Qed.

Lemma Series_with_index_trace (x : Series) (vs : list float) :
  snd (Series_with_index x vs) = [].
Proof. unfold Series_with_index. by case_match. Qed.

Lemma NLS_column_trace (x : Series) (weights : option Series)
    (st : loop_state) (c : string * list float) :
  snd (NLS_column x weights st c) = column_trace x weights c.
Proof.
  unfold NLS_column, column_trace.
  rewrite resolve_params_run, bind_Ok. cbn [snd]. f_equal.
  destruct (negb inverted_model); rewrite call_minimize_run, bind_Ok;
    cbn [snd]; f_equal;
    (rewrite bind_silent; [apply Series_with_index_trace | done]).
Qed.

(** A turn that returns leaves the frames' index alone and sets the
    column named by the label. *)
Lemma NLS_column_Ok (x : Series) (weights : option Series)
    (st st' : loop_state) (c : string * list float) (tr : list event) :
  NLS_column x weights st c = (Ok st', tr) ->
  frame_index (st_values st') = frame_index (st_values st) /\
  frame_index (st_stderr st') = frame_index (st_stderr st) /\
  (exists vs, frame_columns (st_values st')
              = assoc_set (fst c) vs (frame_columns (st_values st))) /\
  (exists vs, frame_columns (st_stderr st')
              = assoc_set (fst c) vs (frame_columns (st_stderr st))) /\
  (exists vs, st_residuals st' = <[fst c := Series_of vs]> (st_residuals st)
              /\ length vs = Series_size x) /\
  (exists s, st_fits st' = <[fst c := s]> (st_fits st)) /\
  is_Some (st_result st').
Proof.
  unfold NLS_column. intros H.
  apply bind_Ok_inv in H as (p & t1 & t2 & _ & H & _).
  apply bind_Ok_inv in H as (result & t3 & t4 & _ & H & _).
  simpl in H.
  apply bind_Ok_inv in H as (r & t5 & t6 & Hr & H & _).
  injection H as <- _. simpl.
  unfold Series_with_index in Hr. case_match eqn:Hlen; [| discriminate].
  injection Hr as <- _.
  apply Nat.eqb_eq in Hlen.
  repeat split; eauto.
  - destruct (negb inverted_model); eauto.
Qed.

Lemma NLS_loop_trace (x : Series) (weights : option Series)
    (cols : list (string * list float)) :
  forall (st st' : loop_state) (tr : list event),
    foldM (NLS_column x weights) st cols = (Ok st', tr) ->
    frame_index (st_values st') = frame_index (st_values st) /\
    frame_index (st_stderr st') = frame_index (st_stderr st) /\
    tr = flat_map (column_trace x weights) cols.
Proof.
  induction cols as [| c cols IH]; simpl; intros st st' tr H.
  - by injection H as <- <-.
  - apply bind_Ok_inv in H as (st1 & t1 & t2 & H1 & H2 & ->).
    pose proof (NLS_column_trace x weights st c) as Ht.
    rewrite H1 in Ht. simpl in Ht. subst t1.
    apply NLS_column_Ok in H1 as (Hi1 & Hi2 & _).
    apply IH in H2 as (-> & -> & ->). by rewrite Hi1, Hi2.
Qed.

Lemma NLS_loop_Ok (x : Series) (weights : option Series)
    (cols : list (string * list float)) :
  forall (st st' : loop_state) (tr : list event),
    foldM (NLS_column x weights) st cols = (Ok st', tr) ->
    NoDup (map fst (frame_columns (st_values st)) ++ map fst cols) ->
    NoDup (map fst (frame_columns (st_stderr st)) ++ map fst cols) ->
    frame_index (st_values st') = frame_index (st_values st) /\
    frame_index (st_stderr st') = frame_index (st_stderr st) /\
    map fst (frame_columns (st_values st'))
    = map fst (frame_columns (st_values st)) ++ map fst cols /\
    map fst (frame_columns (st_stderr st'))
    = map fst (frame_columns (st_stderr st)) ++ map fst cols /\
    tr = flat_map (column_trace x weights) cols.
Proof.
  induction cols as [| c cols IH]; simpl; intros st st' tr H Hv Hs.
  - injection H as <- <-. by rewrite !app_nil_r.
  - apply bind_Ok_inv in H as (st1 & t1 & t2 & H1 & H2 & ->).
    pose proof (NLS_column_trace x weights st c) as Ht.
    rewrite H1 in Ht. simpl in Ht. subst t1.
    apply NLS_column_Ok in H1
      as (Hi1 & Hi2 & [vs1 Hc1] & [vs2 Hc2] & _).
    assert (Hf1 : map fst (frame_columns (st_values st1))
                  = map fst (frame_columns (st_values st)) ++ [fst c]).
    { rewrite Hc1. apply assoc_set_fresh. intros Hin.
      apply NoDup_app in Hv as (_ & Hv & _). apply (Hv _ Hin). by left. }
    assert (Hf2 : map fst (frame_columns (st_stderr st1))
                  = map fst (frame_columns (st_stderr st)) ++ [fst c]).
    { rewrite Hc2. apply assoc_set_fresh. intros Hin.
      apply NoDup_app in Hs as (_ & Hs & _). apply (Hs _ Hin). by left. }
    apply IH in H2 as (-> & -> & -> & -> & ->).
    + rewrite Hi1, Hi2, Hf1, Hf2, <- !app_assoc. done.
    + rewrite Hf1, <- app_assoc. exact Hv.
    + rewrite Hf2, <- app_assoc. exact Hs.
Qed.

Lemma concat_Ok_inv (d d' : gmap string Series) (t : list event) :
  concat d = (Ok d', t) -> d' = concat_table d /\ d <> ∅ /\ t = [].
Proof.
  unfold concat. case_decide; [discriminate |]. by intros [= <- <-].
Qed.

(** What a call of [NLS] that returns went through: the loop ran over
    every column and returned, both dictionaries were non-empty, and the
    Result is the one assembled from the loop's variables. *)
Lemma NLS_Ok_inv (data : DataFrame) (weights : option (list float))
    (plot : bool) (r : instance) (tr : list event) :
  NLS data weights plot = (Ok r, tr) ->
  exists st tr_loop,
    foldM (NLS_column (Series_of (index data)) (Series_of <$> weights))
      (initial_state data) (columns data) = (Ok st, tr_loop) /\
    r = assemble st /\
    st_residuals st <> ∅ /\ st_fits st <> ∅ /\
    tr = sample_trace data ++ tr_loop ++ plot_trace plot st.
Proof.
  unfold NLS. intros H.
  apply bind_Ok_inv in H as (w & t1 & t2 & Hw & H & ->).
  apply bind_Ok_inv in H as (p & t3 & t4 & Hp & H & ->).
  apply bind_Ok_inv in H as (st & t5 & t6 & Hloop & H & ->).
  apply bind_Ok_inv in H as (res & t7 & t8 & Hres & H & ->).
  apply concat_Ok_inv in Hres as (-> & Hres & ->).
  apply bind_Ok_inv in H as (fits & t9 & t10 & Hfits & H & ->).
  apply concat_Ok_inv in Hfits as (-> & Hfits & ->).
  apply bind_Ok_inv in H as (u & t11 & t12 & Hplot & H & ->).
  injection H as <- <-.
  assert (w = Series_of <$> weights /\ t1 = []) as [-> ->].
  { destruct weights as [ws |]; [| inversion Hw; split; reflexivity].
    unfold py_assert in Hw.
    destruct (Nat.eqb (length ws) _); inversion Hw; split; reflexivity. }
  assert (p = sample_params data /\ t3 = sample_trace data) as [-> ->].
  { unfold sample_params, sample_trace, icol0 in *.
    destruct params as [p' | g]; [inversion Hp; split; reflexivity |].
    destruct (columns data) as [| [c vs] cols]; inversion Hp;
      split; reflexivity. }
  assert (t11 = plot_trace plot st) as ->.
  { unfold plot_trace. fold (assemble st) in Hplot.
    destruct plot; [| inversion Hplot; reflexivity].
    destruct (getattr style "fits" (assemble st)) as [v | e];
      [| inversion Hplot].
    destruct v; inversion Hplot; reflexivity. }
  exists st, t5. repeat split; try done.
  by rewrite !app_nil_r.
Qed.

End NLSFacts.

(** ** Reading the Result *)

Section ResultFacts.

Variable style : class_style.
Variable model_func : float -> Parameters -> float.

Local Abbreviation assemble := (assemble style model_func).

Lemma getattr_values (st : loop_state) :
  getattr style "values" (assemble st)
  = Ok (VFrame (ParamFrame_T (st_values st))).
Proof. destruct style; reflexivity. Qed.

Lemma getattr_stderr (st : loop_state) :
  getattr style "stderr" (assemble st)
  = Ok (VFrame (ParamFrame_T (st_stderr st))).
Proof. destruct style; reflexivity. Qed.

Lemma getattr_residuals (st : loop_state) :
  getattr style "residuals" (assemble st)
  = Ok (VTable (concat_table (st_residuals st))).
Proof. destruct style; reflexivity. Qed.

Lemma getattr_residual (st : loop_state) :
  getattr style "residual" (assemble st) = Raise TypeError.
Proof. destruct style; reflexivity. Qed.

Lemma getattr_fits (st : loop_state) :
  getattr style "fits" (assemble st)
  = match style with
    | Classic => Ok (VTable (concat_table (st_fits st)))
    | NewStyle => Raise TypeError
    end.
Proof. destruct style; reflexivity. Qed.

End ResultFacts.

Lemma params_calls_app (t1 t2 : list event) :
  params_calls (t1 ++ t2) = params_calls t1 ++ params_calls t2.
Proof. unfold params_calls. apply omap_app. Qed.

Lemma params_calls_plot_trace (style : class_style)
    (model_func : float -> Parameters -> float) (plot : bool)
    (st : loop_state) :
  params_calls (plot_trace style model_func plot st) = [].
Proof.
  unfold plot_trace. destruct plot; [| done].
  destruct (getattr _ _ _) as [[] |]; done.
Qed.

Lemma params_calls_columns (g : Series -> Parameters) (inverted_model : bool)
    (x : Series) (weights : option Series) (cols : list (string * list float)) :
  params_calls (flat_map (column_trace (Callable g) inverted_model x weights) cols)
  = map (fun c => Series_dropna true (Series_of (snd c))) cols.
Proof.
  induction cols as [| c cols IH]; [done |].
  cbn [flat_map map]. rewrite params_calls_app, IH.
  unfold column_trace. by destruct (negb inverted_model).
Qed.

(** C2. When [NLS] returns for a table and a parameter set, the rows of the
    tables of values and of standard errors are labelled by the table's
    columns, in order, and their columns by the parameter names, in
    order. *)
Theorem result_tables_labels
    (np_log : float -> float)
    (minimize : (Parameters -> list float) -> Parameters -> Minimizer)
    (style : class_style) (model_func : float -> Parameters -> float)
    (P : Parameters) (log_residual inverted_model : bool)
    (T : DataFrame) (weights : option (list float)) (plot : bool)
    (r : instance) (tr : list event) :
  wf_table T ->
  NLS np_log minimize style model_func (Static P) log_residual inverted_model
    T weights plot = (Ok r, tr) ->
  exists values stderr,
    getattr style "values" r = Ok (VFrame values) /\
    getattr style "stderr" r = Ok (VFrame stderr) /\
    frame_index values = map fst (columns T) /\
    map fst (frame_columns values) = lmfit.keys P /\
    frame_index stderr = map fst (columns T) /\
    map fst (frame_columns stderr) = lmfit.keys P.
Proof.
  intros [Hnd _] H.
  apply NLS_Ok_inv in H as (st & tl & Hloop & -> & _).
  apply NLS_loop_Ok in Hloop as (Hi1 & Hi2 & Hc1 & Hc2 & _); [| done ..].
  exists (ParamFrame_T (st_values st)), (ParamFrame_T (st_stderr st)).
  rewrite getattr_values, getattr_stderr.
  rewrite !ParamFrame_T_index, !ParamFrame_T_columns, Hi1, Hi2, Hc1, Hc2.
  done.
Qed.

Lemma Sample_gap_wf : wf_table Sample.gap.
Proof.
  split.
  - cbn. by apply (bool_decide_unpack _).
  - repeat constructor.
Qed.

Lemma result_tables_labels_witness :
  exists values stderr,
    getattr Classic "values" (Sample.returned (Sample.fit_gap Classic) ∅)
    = Ok (VFrame values) /\
    getattr Classic "stderr" (Sample.returned (Sample.fit_gap Classic) ∅)
    = Ok (VFrame stderr) /\
    frame_index values = ["u"; "v"] /\
    map fst (frame_columns values) = ["a"] /\
    frame_index stderr = ["u"; "v"] /\
    map fst (frame_columns stderr) = ["a"].
Proof.
  apply (result_tables_labels Sample.log (Sample.minimize true) Classic
           Sample.line Sample.a1 false false Sample.gap None false
           (Sample.returned (Sample.fit_gap Classic) ∅)
           (snd (Sample.fit_gap Classic))).
  - exact Sample_gap_wf.
  - vm_compute. reflexivity.
Defined.

(** C3. After a call of [NLS] that returns, reading the accessor
    [residual] of the Result raises instead of returning the table of
    residual series: its getter is declared with a second parameter, and
    the table is stored under the other name [residuals].  The accessor
    [fits] returns the table of fitted curves only because a classic
    class lets the assignment bypass the property; read as a new-style
    class it raises as well. *)
Theorem result_residual_accessor_raises
    (np_log : float -> float)
    (minimize : (Parameters -> list float) -> Parameters -> Minimizer)
    (style : class_style) (model_func : float -> Parameters -> float)
    (params : ParamSpec) (log_residual inverted_model : bool)
    (data : DataFrame) (weights : option (list float)) (plot : bool)
    (r : instance) (tr : list event) :
  NLS np_log minimize style model_func params log_residual inverted_model
    data weights plot = (Ok r, tr) ->
  exists residuals fits : gmap string Series,
    residuals <> ∅ /\ fits <> ∅ /\
    getattr style "residuals" r = Ok (VTable residuals) /\
    getattr style "residual" r = Raise TypeError /\
    getattr style "fits" r
    = match style with
      | Classic => Ok (VTable fits)
      | NewStyle => Raise TypeError
      end.
Proof.
  intros H.
  apply NLS_Ok_inv in H as (st & tl & _ & -> & Hr & Hf & _).
  exists (concat_table (st_residuals st)), (concat_table (st_fits st)).
  rewrite getattr_residuals, getattr_residual, getattr_fits.
  by repeat split; try apply concat_table_nonempty.
Qed.

Lemma result_residual_accessor_raises_witness :
  exists residuals fits : gmap string Series,
    residuals <> ∅ /\ fits <> ∅ /\
    getattr NewStyle "residuals" (Sample.returned (Sample.fit_gap NewStyle) ∅)
    = Ok (VTable residuals) /\
    getattr NewStyle "residual" (Sample.returned (Sample.fit_gap NewStyle) ∅)
    = Raise TypeError /\
    getattr NewStyle "fits" (Sample.returned (Sample.fit_gap NewStyle) ∅)
    = Raise TypeError.
Proof.
  apply (result_residual_accessor_raises Sample.log (Sample.minimize true)
           NewStyle Sample.line (Static Sample.a1) false false Sample.gap
           None false
           (Sample.returned (Sample.fit_gap NewStyle) ∅)
           (snd (Sample.fit_gap NewStyle))).
  vm_compute. reflexivity.
Defined.

(** C10. With a callable [params], a call of [NLS] that returns has
    invoked it once before the loop on the first column as it is, missing
    values included, and then once per column on the column with its
    missing values dropped; the names returned by the first invocation
    label the columns of the tables of values and of standard errors. *)
Theorem callable_params_sampled_on_raw_first_column
    (np_log : float -> float)
    (minimize : (Parameters -> list float) -> Parameters -> Minimizer)
    (style : class_style) (model_func : float -> Parameters -> float)
    (g : Series -> Parameters) (log_residual inverted_model : bool)
    (data : DataFrame) (weights : option (list float)) (plot : bool)
    (r : instance) (tr : list event) :
  NLS np_log minimize style model_func (Callable g) log_residual
    inverted_model data weights plot = (Ok r, tr) ->
  exists c0 values stderr,
    head (columns data) = Some c0 /\
    params_calls tr
    = Series_of (snd c0)
      :: map (fun c => Series_dropna true (Series_of (snd c))) (columns data) /\
    getattr style "values" r = Ok (VFrame values) /\
    getattr style "stderr" r = Ok (VFrame stderr) /\
    map fst (frame_columns values) = lmfit.keys (g (Series_of (snd c0))) /\
    map fst (frame_columns stderr) = lmfit.keys (g (Series_of (snd c0))).
Proof.
  intros H.
  pose proof H as H0.
  apply NLS_Ok_inv in H as (st & tl & Hloop & -> & Hr & _ & ->).
  apply NLS_loop_trace in Hloop as (Hi1 & Hi2 & ->).
  destruct (columns data) as [| c0 cols] eqn:Hcols.
  { exfalso. unfold NLS, icol0 in H0. rewrite Hcols in H0.
    destruct weights as [w |];
      [unfold py_assert in H0; destruct (Nat.eqb _ _) |];
      cbn in H0; discriminate H0. }
  exists c0, (ParamFrame_T (st_values st)), (ParamFrame_T (st_stderr st)).
  rewrite getattr_values, getattr_stderr, !ParamFrame_T_columns, Hi1, Hi2.
  rewrite !params_calls_app, params_calls_plot_trace, params_calls_columns.
  unfold sample_trace, initial_state, sample_params. rewrite Hcols.
  destruct c0 as [l0 vs0]. rewrite app_nil_r. done.
Qed.

Lemma callable_params_sampled_on_raw_first_column_witness :
  exists c0 values stderr,
    head (columns Sample.gap) = Some c0 /\
    params_calls (snd (Sample.fit_gap_callable Classic))
    = Series_of (snd c0)
      :: map (fun c => Series_dropna true (Series_of (snd c)))
           (columns Sample.gap) /\
    getattr Classic "values"
      (Sample.returned (Sample.fit_gap_callable Classic) ∅)
    = Ok (VFrame values) /\
    getattr Classic "stderr"
      (Sample.returned (Sample.fit_gap_callable Classic) ∅)
    = Ok (VFrame stderr) /\
    map fst (frame_columns values) = ["a"] /\
    map fst (frame_columns stderr) = ["a"].
Proof.
  apply (callable_params_sampled_on_raw_first_column Sample.log
           (Sample.minimize true) Classic Sample.line (fun _ => Sample.a1)
           false false Sample.gap None false
           (Sample.returned (Sample.fit_gap_callable Classic) ∅)
           (snd (Sample.fit_gap_callable Classic))).
  vm_compute. reflexivity.
Defined.

(** ** Convergence *)

Section Convergence.

Variable np_log : float -> float.
Variable minimize : (Parameters -> list float) -> Parameters -> Minimizer.
Variable style : class_style.
Variable model_func : float -> Parameters -> float.
Variable params : ParamSpec.
Variable log_residual inverted_model : bool.
Variable b : bool.

Lemma bind_map_outcome {A B C} (f : A -> B) (m : M A) (k : B -> M C) :
  bind (map_outcome f m) k = bind m (fun a => k (f a)).
Proof. by destruct m as [[a | e] t]. Qed.

Lemma NLS_column_report (x : Series) (weights : option Series)
    (st : loop_state) (c : string * list float) :
  NLS_column np_log (report b minimize) model_func params log_residual
    inverted_model x weights (reported_state b st) c
  = map_outcome (reported_state b)
      (NLS_column np_log minimize model_func params log_residual
         inverted_model x weights st c).
Proof.
  unfold NLS_column. rewrite !resolve_params_run, !bind_Ok.
  destruct (negb inverted_model); rewrite !call_minimize_run, !bind_Ok;
    unfold report, reported; cbn [lmfit.params lmfit.residual];
    unfold Series_with_index; destruct (Nat.eqb _ _); reflexivity.
Qed.

Lemma NLS_loop_report (x : Series) (weights : option Series)
    (cols : list (string * list float)) (st : loop_state) :
  foldM (NLS_column np_log (report b minimize) model_func params log_residual
           inverted_model x weights) (reported_state b st) cols
  = map_outcome (reported_state b)
      (foldM (NLS_column np_log minimize model_func params log_residual
                inverted_model x weights) st cols).
Proof.
  revert st. induction cols as [| c cols IH]; intros st; [done |].
  cbn [foldM]. rewrite NLS_column_report, bind_map_outcome.
  destruct (NLS_column _ _ _ _ _ _ _ _ st c) as [[st1 | e] t]; [| done].
  rewrite !bind_Ok, IH. reflexivity.
Qed.

End Convergence.

(** C4, where the code departs from the claim.  A call of [NLS] comes out
    the same, Result and calls alike, whatever the solver reports about
    convergence: a column that failed to converge stops nothing, and
    nothing in the Result tells it from one that converged. *)
Theorem convergence_report_is_dropped
    (np_log : float -> float)
    (minimize : (Parameters -> list float) -> Parameters -> Minimizer)
    (style : class_style) (model_func : float -> Parameters -> float)
    (params : ParamSpec) (log_residual inverted_model : bool)
    (data : DataFrame) (weights : option (list float)) (plot : bool)
    (b : bool) :
  NLS np_log (report b minimize) style model_func params log_residual
    inverted_model data weights plot
  = NLS np_log minimize style model_func params log_residual
      inverted_model data weights plot.
Proof.
  unfold NLS.
  apply bind_ext; intros w. apply bind_ext; intros p.
  change {| st_values := ParamFrame_new (lmfit.keys p);
            st_stderr := ParamFrame_new (lmfit.keys p);
            st_residuals := ∅; st_fits := ∅; st_result := None |}
    with (reported_state b
            {| st_values := ParamFrame_new (lmfit.keys p);
               st_stderr := ParamFrame_new (lmfit.keys p);
               st_residuals := ∅; st_fits := ∅; st_result := None |})
    at 1.
  rewrite NLS_loop_report, bind_map_outcome.
  apply bind_ext; intros st.
  cbn [reported_state st_values st_stderr st_residuals st_fits st_result].
  destruct (st_result st); reflexivity.
Qed.

(** ** Validation *)

(** C9, as the code has it.  Before anything else [NLS] checks one thing,
    that a given weight sequence has as many entries as the table has rows,
    and a call that fails this check raises the assertion without having
    called the factory or the solver.  Past the check, a table with no
    column makes the call fail without a solver call, through the library's
    own exception; for any other table the call goes on to sample the
    parameters and to call the solver on the first column, whatever the
    parameter set and however few values the column has. *)
Theorem NLS_checks_only_weights
    (np_log : float -> float)
    (minimize : (Parameters -> list float) -> Parameters -> Minimizer)
    (style : class_style) (model_func : float -> Parameters -> float)
    (params : ParamSpec) (log_residual inverted_model : bool)
    (data : DataFrame) (weights : option (list float)) (plot : bool) :
  exists out tr,
    NLS np_log minimize style model_func params log_residual inverted_model
      data weights plot = (out, tr) /\
    if weights_ok data weights then
      match columns data with
      | [] =>
          tr = [] /\
          out = Raise match params with
                      | Callable _ => IndexError
                      | Static _ => LibraryError "No objects to concatenate"
                      end
      | c :: _ =>
          exists tr',
            tr = sample_trace params data
                 ++ column_trace params inverted_model
                      (Series_of (index data)) (Series_of <$> weights) c
                 ++ tr'
      end
    else
      out = Raise (AssertionError
                     "weights must be an array-like sequence the same length as data.")
      /\ tr = [].
Proof.
  destruct (NLS _ _ _ _ _ _ _ data weights plot) as [out tr] eqn:H.
  exists out, tr. split; [reflexivity |].
  unfold NLS in H.
  assert (Hw : match weights with
               | Some w =>
                   py_assert (Nat.eqb (length w)
                                (Series_size (Series_of (index data))))
                     "weights must be an array-like sequence the same length as data." ;;
                   ret (Some (Series_of w))
               | None => ret None
               end
               = if weights_ok data weights
                 then (Ok (Series_of <$> weights), [])
                 else (Raise (AssertionError
                        "weights must be an array-like sequence the same length as data."),
                       [])).
  { unfold weights_ok. destruct weights as [w |]; [| reflexivity].
    rewrite Series_size_of.
    destruct (Nat.eqb (length w) (length (index data))); reflexivity. }
  rewrite Hw in H. clear Hw.
  destruct (weights_ok data weights); [| by inversion H].
  rewrite bind_Ok in H.
  unfold sample_trace, icol0 in *.
  destruct (columns data) as [| c cols] eqn:Hcols.
  - destruct params as [p | g]; cbn in H; by inversion H.
  - assert (Hp : exists p,
               match params with
               | Static p => ret p
               | Callable g =>
                   y0 <- (let (_, vs) := c in ret (Series_of vs)) ;;
                   emit (EvParams y0) ;; ret (g y0)
               end
               = (Ok p, match params with
                        | Callable _ => [EvParams (Series_of (snd c))]
                        | Static _ => []
                        end)).
    { destruct params as [p | g]; [by exists p |].
      destruct c as [l vs]. by eexists. }
    destruct Hp as [p Hp]. 
    replace (match params with
             | Static _ => []
             | Callable _ => let (_, vs) := c in [EvParams (Series_of vs)]
             end)
      with (match params with
            | Callable _ => [EvParams (Series_of (snd c))]
            | Static _ => []
            end) by (by destruct params, c).
    rewrite Hp, bind_Ok in H. cbn [foldM fst snd] in H.
    match type of H with
    | context [snd (bind (bind ?m ?k1) ?k2)] =>
        destruct (bind_trace (bind m k1) k2) as [t2 Ht2];
        destruct (bind_trace m k1) as [t3 Ht3];
        rewrite Ht2, Ht3, NLS_column_trace in H
    end.
    injection H as _ <-. exists (t3 ++ t2). simpl.
    by rewrite <- !app_assoc.
Qed.

(** ** The power-law fit *)

Lemma assoc_set_fresh_app {A} (k : string) (a : A) (l : list (string * A)) :
  k ∉ map fst l -> assoc_set k a l = l ++ [(k, a)].
Proof.
  induction l as [| [k' a'] l IH]; simpl; intros Hk; [done |].
  destruct (String.eqb_spec k k') as [-> | Hne].
  - exfalso. apply Hk. by left.
  - f_equal. apply IH. intros Hin. apply Hk. by right.
Qed.

Lemma concat_nonempty (d : gmap string Series) :
  d <> ∅ -> concat d = ret (concat_table d).
Proof. intros Hd. unfold concat. by case_decide. Qed.

Section PowerlawFacts.

Variable np_log : float -> float.
Variable np_exp : float -> float.
Variable np_pow : float -> float -> float.
Variable linregress : list float -> list float -> outcome (float * float).

Local Abbreviation fit_powerlaw_column :=
  (fit_powerlaw_column np_log np_exp np_pow linregress).
Local Abbreviation fit_powerlaw :=
  (fit_powerlaw np_log np_exp np_pow linregress).
Local Abbreviation regression := (regression np_log linregress).
Local Abbreviation curve := (curve np_exp np_pow).
Local Abbreviation curves := (curves np_exp np_pow).

Lemma fit_powerlaw_column_Ok (x : Series)
    (st : ParamFrame * gmap string Series) (c : string * list float)
    (si : float * float) :
  regression x c = Ok si ->
  length (frame_index (fst st)) = 2 ->
  fit_powerlaw_column x st c
  = (Ok ({| frame_index := frame_index (fst st);
            frame_columns :=
              assoc_set (fst c) [fst si; np_exp (snd si)]
                (frame_columns (fst st)) |},
         <[fst c := curve x si]> (snd st)),
     [EvPrint (fst si) (snd si)]).
Proof.
  unfold fit_powerlaw_column, regression. intros Hr Hlen.
  rewrite Hr. unfold lift, emit, ParamFrame_setlist. rewrite !bind_Ok.
  cbn [length]. rewrite Hlen. reflexivity.
Qed.

Lemma fit_powerlaw_column_Raise (x : Series)
    (st : ParamFrame * gmap string Series) (c : string * list float)
    (e : exn) :
  regression x c = Raise e -> fit_powerlaw_column x st c = (Raise e, []).
Proof.
  unfold fit_powerlaw_column, regression. intros Hr. by rewrite Hr.
Qed.

(** The loop over columns whose regressions all return. *)
Lemma powerlaw_loop_Ok (x : Series) (cols : list (string * list float))
    (rs : list (float * float)) :
  Forall2 (fun c si => regression x c = Ok si) cols rs ->
  forall (vals : ParamFrame) (fits : gmap string Series),
    length (frame_index vals) = 2 ->
    NoDup (map fst (frame_columns vals) ++ map fst cols) ->
    foldM (fit_powerlaw_column x) (vals, fits) cols
    = (Ok ({| frame_index := frame_index vals;
              frame_columns :=
                frame_columns vals
                ++ zip_with (fun c si => (fst c, [fst si; np_exp (snd si)]))
                     cols rs |},
           curves x fits cols rs),
       map (fun si => EvPrint (fst si) (snd si)) rs).
Proof.
  induction 1 as [| c si cols rs Hr _ IH]; intros vals fits Hlen Hnd.
  - cbn. rewrite app_nil_r. by destruct vals.
  - cbn [foldM].
    rewrite (fit_powerlaw_column_Ok x (vals, fits) c si Hr Hlen), bind_Ok.
    cbn [fst snd].
    assert (Hfresh : fst c ∉ map fst (frame_columns vals)).
    { intros Hin. apply NoDup_app in Hnd as (_ & Hnd & _).
      apply (Hnd _ Hin). by left. }
    rewrite (assoc_set_fresh_app _ _ _ Hfresh).
    rewrite IH; cbn [frame_index frame_columns]; [| done |].
    + cbn [fst snd zip_with map app]. rewrite <- app_assoc. reflexivity.
    + rewrite map_app, <- app_assoc. exact Hnd.
Qed.

Lemma curves_nonempty (x : Series) (cols : list (string * list float))
    (rs : list (float * float)) (fits : gmap string Series) :
  length cols = length rs -> cols <> [] \/ fits <> ∅ ->
  curves x fits cols rs <> ∅.
Proof.
  unfold curves. revert rs fits.
  induction cols as [| c cols IH]; intros [| si rs] fits Hlen Hne;
    simplify_eq/=.
  - by destruct Hne.
  - apply IH; [done |]. right. apply insert_non_empty.
Qed.

(** Every fitted curve has every row of the table, so concatenating the
    curves changes nothing. *)
Lemma curves_full (xs : list float) (cols : list (string * list float))
    (rs : list (float * float)) (fits : gmap string Series) :
  map_Forall (fun _ s => exists vs, s = Series_of vs /\ length vs = length xs)
    fits ->
  map_Forall (fun _ s => exists vs, s = Series_of vs /\ length vs = length xs)
    (curves (Series_of xs) fits cols rs).
Proof.
  unfold curves. revert rs fits.
  induction cols as [| c cols IH]; intros [| si rs] fits Hfits; cbn;
    [done .. |].
  apply IH. apply map_Forall_insert_2; [| done].
  unfold curve. rewrite Series_apply_of. eexists. split; [done |].
  by rewrite length_map.
Qed.

Lemma concat_curves (xs : list float) (cols : list (string * list float))
    (rs : list (float * float)) :
  concat_table (curves (Series_of xs) ∅ cols rs)
  = curves (Series_of xs) ∅ cols rs.
Proof.
  apply (concat_table_full (length xs)), curves_full, map_Forall_empty.
Qed.

(** The loop when some regression raises: the first one that does ends
    the call with its exception. *)
Lemma powerlaw_loop_Raise (x : Series) (cols : list (string * list float)) :
  forall (st : ParamFrame * gmap string Series) (e : exn) (tr : list event),
    length (frame_index (fst st)) = 2 ->
    foldM (fit_powerlaw_column x) st cols = (Raise e, tr) ->
    exists c, c ∈ cols /\ regression x c = Raise e.
Proof.
  induction cols as [| c cols IH]; intros st e tr Hlen H; [discriminate |].
  cbn [foldM] in H.
  destruct (regression x c) as [si | e'] eqn:Hr.
  - rewrite (fit_powerlaw_column_Ok x st c si Hr Hlen), bind_Ok in H.
    destruct (foldM _ _ cols) as [[st' | e''] t] eqn:Hloop; [discriminate |].
    apply IH in Hloop as (c' & Hin & Hc'); [| done].
    injection H as <- _. exists c'. split; [by right | done].
  - rewrite (fit_powerlaw_column_Raise x st c e' Hr) in H.
    injection H as <- _. exists c. split; [by left | done].
Qed.

(** The loop returns only when every regression returned. *)
Lemma powerlaw_loop_inv (x : Series) (cols : list (string * list float)) :
  forall (st st' : ParamFrame * gmap string Series) (tr : list event),
    length (frame_index (fst st)) = 2 ->
    foldM (fit_powerlaw_column x) st cols = (Ok st', tr) ->
    exists rs, Forall2 (fun c si => regression x c = Ok si) cols rs.
Proof.
  induction cols as [| c cols IH]; intros st st' tr Hlen H;
    [by exists [] |].
  cbn [foldM] in H.
  destruct (regression x c) as [si | e] eqn:Hr.
  - rewrite (fit_powerlaw_column_Ok x st c si Hr Hlen), bind_Ok in H.
    destruct (foldM _ _ cols) as [[st1 | e] t] eqn:Hloop; [| discriminate].
    apply IH in Hloop as [rs Hrs]; [| done].
    exists (si :: rs). by constructor.
  - rewrite (fit_powerlaw_column_Raise x st c e Hr) in H. discriminate.
Qed.

Lemma powerlaw_loop_fits (x : Series) (cols : list (string * list float)) :
  forall (st st' : ParamFrame * gmap string Series) (tr : list event),
    length (frame_index (fst st)) = 2 ->
    foldM (fit_powerlaw_column x) st cols = (Ok st', tr) ->
    cols <> [] \/ snd st <> ∅ -> snd st' <> ∅.
Proof.
  induction cols as [| c cols IH]; intros st st' tr Hlen H Hne.
  - injection H as <- _. by destruct Hne.
  - cbn [foldM] in H.
    destruct (regression x c) as [si | e'] eqn:Hr.
    + rewrite (fit_powerlaw_column_Ok x st c si Hr Hlen), bind_Ok in H.
      destruct (foldM _ _ cols) as [[st1 | e''] t] eqn:Hloop;
        [| discriminate].
      injection H as <- _.
      eapply IH; [| exact Hloop |]; [done |].
      right. apply insert_non_empty.
    + rewrite (fit_powerlaw_column_Raise x st c e' Hr) in H. discriminate.
Qed.

End PowerlawFacts.

Lemma powerlaw_rows {A} (f : string * A -> float * float -> Prop)
    (np_exp : float -> float) (cols : list (string * A))
    (rs : list (float * float)) :
  Forall2 f cols rs ->
  let rows := zip_with (fun c si => (fst c, [fst si; np_exp (snd si)]))
                cols rs in
  map fst rows = map fst cols /\
  map (fun c : string * list float => default NaN (snd c !! 0%nat)) rows
  = map fst rs /\
  map (fun c : string * list float => default NaN (snd c !! 1%nat)) rows
  = map (fun si => np_exp (snd si)) rs.
Proof.
  induction 1 as [| c si cols rs _ _ IH]; [done |].
  destruct IH as (IH1 & IH2 & IH3). cbn. by rewrite IH1, IH2, IH3.
Qed.

(** C5, as the code has it.  For a table with at least one column on which
    every regression returns, [fit_powerlaw] returns the table indexed by
    column label whose columns [n] and [A] hold, per column, the slope and
    the exponentiated intercept of the regression of the logarithm of the
    column's non-missing values on the logarithm of x, and it returns
    nothing else: the fitted curves [A * x^n], evaluated at every x of the
    x-axis, go to the plotting module when [plot] is set and nowhere
    otherwise. *)
Theorem fit_powerlaw_returns_values_only
    (np_log np_exp : float -> float) (np_pow : float -> float -> float)
    (linregress : list float -> list float -> outcome (float * float))
    (data : DataFrame) (plot : bool) (rs : list (float * float)) :
  wf_table data ->
  columns data <> [] ->
  Forall2 (fun c si =>
             regression np_log linregress (Series_of (index data)) c = Ok si)
    (columns data) rs ->
  fit_powerlaw np_log np_exp np_pow linregress data plot
  = (Ok {| frame_index := map fst (columns data);
           frame_columns :=
             [("n", map fst rs);
              ("A", map (fun si => np_exp (snd si)) rs)] |},
     map (fun si => EvPrint (fst si) (snd si)) rs
     ++ if plot
        then [EvPlot (curves np_exp np_pow (Series_of (index data)) ∅
                        (columns data) rs)]
        else []).
Proof.
  intros [Hnd _] Hne Hrs. unfold fit_powerlaw.
  rewrite (powerlaw_loop_Ok np_log np_exp np_pow linregress _ _ rs Hrs);
    [| done | done].
  rewrite bind_Ok. cbn [fst snd].
  rewrite concat_nonempty
    by (apply curves_nonempty; [by eapply Forall2_length | by left]).
  rewrite concat_curves.
  destruct (powerlaw_rows _ np_exp _ _ Hrs) as (H1 & H2 & H3).
  destruct plot; unfold ret, emit; rewrite !bind_Ok; cbn [fst snd app];
    unfold ParamFrame_T, ParamFrame_new;
    cbn [frame_index frame_columns imap app fst snd]; unfold compose;
    rewrite H1, H2, H3, ?app_nil_r; reflexivity.
Qed.

Lemma Sample_diagonal_wf : wf_table Sample.diagonal.
Proof.
  split.
  - cbn. by apply (bool_decide_unpack _).
  - repeat constructor.
Qed.

Lemma fit_powerlaw_returns_values_only_witness :
  fit_powerlaw Sample.log Sample.exp Sample.pow Sample.linregress
    Sample.diagonal true
  = (Ok {| frame_index := ["u"];
           frame_columns := [("n", [1%float]); ("A", [1%float])] |},
     [EvPrint 1 0;
      EvPlot (curves Sample.exp Sample.pow (Series_of [1; 2]%float) ∅
                (columns Sample.diagonal) [(1, 0)]%float)]).
Proof.
  apply (fit_powerlaw_returns_values_only Sample.log Sample.exp Sample.pow
           Sample.linregress Sample.diagonal true [(1, 0)]%float).
  - exact Sample_diagonal_wf.
  - discriminate.
  - repeat constructor.
Defined.

(** The claim C5 fails on the table [Sample.diagonal] (y = x at x = 1, 2):
    the curve of the column is computed, 1 and 2, but the call returns the
    table of [n] and [A] alone, and with [plot] unset nothing else leaves
    the function. *)
Lemma fit_powerlaw_counterexample :
  fit_powerlaw Sample.log Sample.exp Sample.pow Sample.linregress
    Sample.diagonal false
  = (Ok {| frame_index := ["u"];
           frame_columns := [("n", [1%float]); ("A", [1%float])] |},
     [EvPrint 1 0]) /\
  curves Sample.exp Sample.pow (Series_of [1; 2]%float) ∅
    (columns Sample.diagonal) [(1, 0)]%float !! "u"
  = Some [Some 1; Some 2]%float.
Proof. split; vm_compute; reflexivity. Qed.

(** C6, as the code has it.  [fit_powerlaw] checks no sign of x or y: the
    logarithms go to the regression as numpy gives them, and the regression
    alone decides how the call ends.  On a table with distinct column labels
    the call returns exactly when there is a column and the regression
    returns on every column, and then [n] and [A] hold, per column, the
    slope and the exponentiated intercept the regression gave, whatever the
    signs of the data; the call raises only what the regression raised on a
    column, or the library's exception for a table without columns. *)
Theorem fit_powerlaw_checks_no_sign
    (np_log np_exp : float -> float) (np_pow : float -> float -> float)
    (linregress : list float -> list float -> outcome (float * float))
    (data : DataFrame) (plot : bool) :
  wf_table data ->
  match fst (fit_powerlaw np_log np_exp np_pow linregress data plot) with
  | Ok values =>
      exists rs,
        Forall2 (fun c si =>
                   regression np_log linregress (Series_of (index data)) c
                   = Ok si)
          (columns data) rs /\
        columns data <> [] /\
        values = {| frame_index := map fst (columns data);
                    frame_columns :=
                      [("n", map fst rs);
                       ("A", map (fun si => np_exp (snd si)) rs)] |}
  | Raise e =>
      (columns data = [] /\ e = LibraryError "No objects to concatenate") \/
      (exists c, c ∈ columns data /\
                 regression np_log linregress (Series_of (index data)) c
                 = Raise e)
  end.
Proof.
  intros [Hnd _].
  destruct (fit_powerlaw np_log np_exp np_pow linregress data plot)
    as [[values | e] tr] eqn:H; cbn [fst]; unfold fit_powerlaw in H.
  - apply bind_Ok_inv in H as (st & t1 & t2 & Hloop & H & _).
    destruct (powerlaw_loop_inv np_log np_exp np_pow linregress
                (Series_of (index data)) (columns data)
                (ParamFrame_new ["n"; "A"], ∅) st t1 eq_refl Hloop)
      as [rs Hrs].
    rewrite (powerlaw_loop_Ok np_log np_exp np_pow linregress _ _ rs Hrs)
      in Hloop by done.
    injection Hloop as <- _. cbn [fst snd] in H.
    apply bind_Ok_inv in H as (fits & t3 & t4 & Hfits & H & _).
    apply concat_Ok_inv in Hfits as (_ & Hne & _).
    exists rs. split; [exact Hrs |]. split.
    + intros Hcols. apply Hne. rewrite Hcols in *.
      by apply Forall2_nil_inv_l in Hrs as ->.
    + destruct (powerlaw_rows _ np_exp _ _ Hrs) as (H1 & H2 & H3).
      assert (Hv : values
                   = ParamFrame_T
                       {| frame_index := frame_index (ParamFrame_new ["n"; "A"]);
                          frame_columns :=
                            frame_columns (ParamFrame_new ["n"; "A"])
                            ++ zip_with
                                 (fun c si => (fst c, [fst si; np_exp (snd si)]))
                                 (columns data) rs |}).
      { destruct plot; unfold ret, emit in H; rewrite !bind_Ok in H;
          by injection H as <- _. }
      rewrite Hv. unfold ParamFrame_T, ParamFrame_new.
      cbn [frame_index frame_columns imap app fst snd]. unfold compose.
      by rewrite H1, H2, H3.
  - destruct (foldM _ _ (columns data)) as [[st | e'] t] eqn:Hloop.
    + left. rewrite bind_Ok in H.
      destruct (columns data) as [| c cols] eqn:Hcols.
      * injection Hloop as <- _. cbn in H. injection H as <- _. done.
      * apply powerlaw_loop_fits in Hloop; [| done | by left].
        rewrite (concat_nonempty _ Hloop) in H. exfalso.
        destruct plot; cbn in H; discriminate H.
    + right. injection H as <- _.
      by apply powerlaw_loop_Raise in Hloop.
Qed.

Lemma Sample_negative_wf : wf_table Sample.negative.
Proof.
  split.
  - cbn. by apply (bool_decide_unpack _).
  - repeat constructor.
Qed.

Lemma fit_powerlaw_checks_no_sign_witness :
  exists rs,
    Forall2 (fun c si =>
               regression Sample.log Sample.linregress
                 (Series_of (index Sample.negative)) c
               = Ok si)
      (columns Sample.negative) rs /\
    columns Sample.negative <> [] /\
    {| frame_index := ["u"];
       frame_columns := [("n", [NaN]); ("A", [NaN])] |}
    = {| frame_index := map fst (columns Sample.negative);
         frame_columns :=
           [("n", map fst rs);
            ("A", map (fun si => Sample.exp (snd si)) rs)] |}.
Proof.
  exact (fit_powerlaw_checks_no_sign Sample.log Sample.exp Sample.pow
           Sample.linregress Sample.negative false Sample_negative_wf).
Defined.

(** The claim C6 fails on the table [Sample.negative]: y = -1 at x = 1, its
    logarithm is NaN, and the call returns normally with NaN for both [n]
    and [A]. *)
Lemma nonpositive_value_counterexample :
  fit_powerlaw Sample.log Sample.exp Sample.pow Sample.linregress
    Sample.negative false
  = (Ok {| frame_index := ["u"];
           frame_columns := [("n", [NaN]); ("A", [NaN])] |},
     [EvPrint NaN NaN]).
Proof. vm_compute. reflexivity. Qed.

(** The claim C9 fails on the table [Sample.hollow] with an empty
    parameter set: the only column has no value at all, and the solver is
    called on it and the call returns. *)
Lemma unvalidated_inputs_counterexample :
  exists r,
    NLS Sample.log (Sample.minimize true) Classic Sample.line (Static [])
      false false Sample.hollow None false
    = (Ok r, [EvMinimize [] [Some 1; Some 2]%float [None; None] None]).
Proof. eexists. vm_compute. reflexivity. Qed.

(** ** Unit weights through the whole fit *)

Lemma fst_bind {A B} (m : M A) (k : A -> M B) :
  fst (bind m k) = match fst m with
                   | Ok a => fst (k a)
                   | Raise e => Raise e
                   end.
Proof. destruct m as [[a | e] t]; simpl; [| done]. by destruct (k a). Qed.

Lemma bind_ret_l {A B} (a : A) (k : A -> M B) : bind (ret a) k = k a.
Proof. unfold bind, ret. by destruct (k a). Qed.

Lemma foldM_fst_ext {A B} (f g : A -> B -> M A) (l : list B) :
  (forall a b, b ∈ l -> fst (f a b) = fst (g a b)) ->
  forall a, fst (foldM f a l) = fst (foldM g a l).
Proof.
  induction l as [| b l IH]; intros Hfg a; [done |].
  cbn [foldM]. rewrite !fst_bind, Hfg by by left.
  destruct (fst (g a b)); [| done].
  apply IH. intros a' b' Hb'. apply Hfg. by right.
Qed.

Lemma residual_func_unit_weights
    (np_log : float -> float) (model_func : float -> Parameters -> float)
    (log_residual : bool) (p : Parameters) (x y : Series) :
  covers x y ->
  residual_func np_log model_func log_residual p x y
    (Some (Series_of (replicate (length x) one)))
  = residual_func np_log model_func log_residual p x y None.
Proof.
  intros Hc.
  rewrite residual_func_weighted, residual_func_unweighted by done.
  rewrite <- (raw_residual_length np_log model_func log_residual p x y Hc).
  set (d := zip_with _ x y).
  rewrite <- (length_map (fill true (nanmean true d)) d).
  by rewrite Series_mul_ones, Series_values_of.
Qed.

(** A fit weighted by 1.0 on every row returns what the unweighted fit
    returns (or raises what it raises): the solver is handed the same
    objective for every column. *)
Theorem unit_weights_fit
    (np_log : float -> float)
    (minimize : (Parameters -> list float) -> Parameters -> Minimizer)
    (style : class_style) (model_func : float -> Parameters -> float)
    (params : ParamSpec) (log_residual inverted_model : bool)
    (data : DataFrame) (plot : bool) :
  wf_table data ->
  fst (NLS np_log minimize style model_func params log_residual
         inverted_model data
         (Some (replicate (length (index data)) one)) plot)
  = fst (NLS np_log minimize style model_func params log_residual
           inverted_model data None plot).
Proof.
  intros [_ Hlen]. unfold NLS.
  rewrite Series_size_of, length_replicate, Nat.eqb_refl.
  unfold py_assert. rewrite !bind_ret_l, !fst_bind.
  match goal with
  | |- match fst ?m with _ => _ end = _ =>
      destruct (fst m) as [p | e]; [| done]
  end.
  rewrite !fst_bind.
  rewrite (foldM_fst_ext
             (NLS_column np_log minimize model_func params log_residual
                inverted_model (Series_of (index data))
                (Some (Series_of (replicate (length (index data)) one))))
             (NLS_column np_log minimize model_func params log_residual
                inverted_model (Series_of (index data)) None)); [done |].
  intros st c Hc.
  rewrite Forall_forall in Hlen. specialize (Hlen c Hc).
  set (x := Series_of (index data)).
  set (y := Series_dropna true (Series_of (snd c))).
  assert (Hxy : length y = length (index data)).
  { unfold y, Series_of. by rewrite Series_dropna_length, length_map. }
  assert (Hx : length x = length (index data)).
  { unfold x, Series_of. by rewrite length_map. }
  unfold NLS_column. fold y.
  rewrite resolve_params_run, !bind_Ok. cbn [fst].
  assert (H1 : (fun q => residual_func np_log model_func log_residual q x y
                  (Some (Series_of (replicate (length (index data)) one))))
               = (fun q => residual_func np_log model_func log_residual q x y
                    None)).
  { apply functional_extensionality. intros q. rewrite <- Hx.
    apply residual_func_unit_weights, covers_of_l. exact Hxy. }
  assert (H2 : (fun q => residual_func np_log model_func log_residual q y x
                  (Some (Series_of (replicate (length (index data)) one))))
               = (fun q => residual_func np_log model_func log_residual q y x
                    None)).
  { apply functional_extensionality. intros q. rewrite <- Hxy.
    apply residual_func_unit_weights, covers_of_r. exact Hxy. }
  destruct (negb inverted_model);
    rewrite !call_minimize_run, !fst_bind; cbn [fst];
    rewrite ?H1, ?H2; reflexivity.
Qed.

Lemma unit_weights_fit_witness :
  fst (NLS Sample.log (Sample.minimize true) Classic Sample.line
         (Static Sample.a1) false false Sample.gap
         (Some [1; 1; 1]%float) false)
  = fst (Sample.fit_gap Classic).
Proof.
  exact (unit_weights_fit Sample.log (Sample.minimize true) Classic
           Sample.line (Static Sample.a1) false false Sample.gap false
           Sample_gap_wf).
Defined.

(** ** When NLS returns *)

Lemma Series_mul_of (l ws : list float) :
  Series_mul (Series_of l) (Series_of ws)
  = Series_of (zip_with PrimFloat.mul l ws).
Proof.
  unfold Series_mul, Series_binop, Series_of. revert ws.
  induction l as [| v l IH]; intros [| w ws]; simpl; [done .. |].
  by rewrite IH.
Qed.

(** The residual vector has one entry per row of the table. *)
Lemma residual_func_length
    (np_log : float -> float) (model_func : float -> Parameters -> float)
    (log_residual : bool) (q : Parameters) (a b : Series)
    (weights : option (list float)) :
  covers a b ->
  match weights with Some ws => length ws = length a | None => True end ->
  length (residual_func np_log model_func log_residual q a b
            (Series_of <$> weights))
  = length a.
Proof.
  intros Hc Hw. destruct weights as [ws |]; cbn [fmap option_fmap option_map].
  - rewrite residual_func_weighted, Series_mul_of, Series_values_of by done.
    rewrite length_zip_with, length_map, raw_residual_length by done. lia.
  - rewrite residual_func_unweighted by done.
    by rewrite length_map, raw_residual_length.
Qed.

Section Returns.

Variable np_log : float -> float.
Variable minimize : (Parameters -> list float) -> Parameters -> Minimizer.
Variable style : class_style.
Variable model_func : float -> Parameters -> float.
Variable params : ParamSpec.
Variable log_residual inverted_model : bool.

(** The solver's residual vector is the objective at some parameters. *)
Hypothesis minimize_residual :
  forall fcn p, exists q, lmfit.residual (minimize fcn p) = fcn q.

Lemma NLS_column_returns (xs : list float) (weights : option (list float))
    (st : loop_state) (c : string * list float) :
  length (snd c) = length xs ->
  match weights with Some ws => length ws = length xs | None => True end ->
  exists st' tr,
    NLS_column np_log minimize model_func params log_residual inverted_model
      (Series_of xs) (Series_of <$> weights) st c = (Ok st', tr) /\
    st_residuals st' <> ∅ /\ st_fits st' <> ∅.
Proof.
  intros Hlen Hw. unfold NLS_column.
  set (x := Series_of xs).
  set (y := Series_dropna true (Series_of (snd c))).
  assert (Hy : length y = length xs).
  { unfold y, Series_of. by rewrite Series_dropna_length, length_map. }
  assert (Hx : length x = length xs).
  { unfold x, Series_of. by rewrite length_map. }
  rewrite resolve_params_run, bind_Ok.
  assert (Hr : forall a b, covers a b -> length a = length xs ->
                 Series_with_index x
                   (lmfit.residual
                      (minimize
                         (fun q => residual_func np_log model_func log_residual
                                     q a b (Series_of <$> weights))
                         (resolved params y)))
                 = ret (Series_of
                          (lmfit.residual
                             (minimize
                                (fun q => residual_func np_log model_func
                                            log_residual q a b
                                            (Series_of <$> weights))
                                (resolved params y))))).
  { intros a b Hc Ha. unfold Series_with_index.
    destruct (minimize_residual
                (fun q => residual_func np_log model_func log_residual q a b
                            (Series_of <$> weights))
                (resolved params y)) as [q ->].
    unfold x.
    rewrite residual_func_length, Series_size_of, Ha, Nat.eqb_refl;
      [done | done |].
    destruct weights; [by rewrite Ha | done]. }
  destruct (negb inverted_model); rewrite call_minimize_run, bind_Ok;
    cbn [fst snd]; rewrite Hr, bind_ret_l;
    try (apply covers_of_l; exact Hy); try (apply covers_of_r; exact Hy);
    try done; cbn [ret fst snd];
    eexists _, _; (split; [reflexivity |]);
    cbn [st_residuals st_fits]; split; apply insert_non_empty.
Qed.

Lemma NLS_loop_returns (xs : list float) (weights : option (list float))
    (cols : list (string * list float)) :
  Forall (fun c => length (snd c) = length xs) cols ->
  match weights with Some ws => length ws = length xs | None => True end ->
  forall st,
    exists st' tr,
      foldM (NLS_column np_log minimize model_func params log_residual
               inverted_model (Series_of xs) (Series_of <$> weights)) st cols
      = (Ok st', tr) /\
      (cols <> [] \/ (st_residuals st <> ∅ /\ st_fits st <> ∅) ->
       st_residuals st' <> ∅ /\ st_fits st' <> ∅).
Proof.
  intros Hlen Hw. induction Hlen as [| c cols Hc _ IH]; intros st.
  - exists st, []. split; [done |]. by intros [? | ?].
  - destruct (NLS_column_returns xs weights st c Hc Hw)
      as (st1 & t1 & H1 & Hne).
    destruct (IH st1) as (st' & t2 & H2 & Hne').
    exists st', (t1 ++ t2). cbn [foldM]. rewrite H1, bind_Ok, H2.
    split; [done |]. intros _. apply Hne'. by right.
Qed.

(** A call of [NLS] with [plot] unset returns whenever the table is well
    formed, with strictly increasing row labels and at least one column,
    and the weights pass the check; the solver is taken to return, with a
    residual vector that is its objective at some parameters. *)
Theorem NLS_returns (data : DataFrame) (weights : option (list float)) :
  wf_table data ->
  increasing (index data) = true ->
  columns data <> [] ->
  weights_ok data weights = true ->
  exists r tr,
    NLS np_log minimize style model_func params log_residual inverted_model
      data weights false = (Ok r, tr).
Proof.
  intros [_ Hlen] _ Hcols Hw. unfold NLS.
  assert (Hw' : match weights with
                | Some ws => length ws = length (index data)
                | None => True
                end).
  { destruct weights as [ws |]; [| done]. by apply Nat.eqb_eq. }
  assert (HW : match weights with
               | Some w =>
                   py_assert (Nat.eqb (length w)
                                (Series_size (Series_of (index data))))
                     "weights must be an array-like sequence the same length as data." ;;
                   ret (Some (Series_of w))
               | None => ret None
               end = ret (Series_of <$> weights)).
  { destruct weights as [ws |]; [| done].
    rewrite Series_size_of, Hw', Nat.eqb_refl. unfold py_assert.
    by rewrite bind_ret_l. }
  rewrite HW, bind_ret_l.
  assert (HP : exists p t,
             match params with
             | Static p => ret p
             | Callable g =>
                 y0 <- icol0 data ;; emit (EvParams y0) ;; ret (g y0)
             end = (Ok p, t)).
  { destruct params as [p | g]; [by eexists _, _ |].
    unfold icol0. destruct (columns data) as [| [l vs] cols]; [done |].
    by eexists _, _. }
  destruct HP as (p & t0 & ->). rewrite bind_Ok.
  destruct (NLS_loop_returns (index data) weights (columns data) Hlen Hw'
              {| st_values := ParamFrame_new (lmfit.keys p);
                 st_stderr := ParamFrame_new (lmfit.keys p);
                 st_residuals := ∅; st_fits := ∅; st_result := None |})
    as (st & t1 & -> & Hne).
  destruct Hne as [Hr Hf]; [by left |].
  rewrite bind_Ok. cbn [fst snd].
  rewrite !concat_nonempty, !bind_ret_l by done.
  by eexists _, _.
Qed.

End Returns.

Lemma NLS_returns_witness :
  exists r tr,
    NLS Sample.log (Sample.minimize true) Classic Sample.line
      (Static Sample.a1) false false Sample.gap None false = (Ok r, tr).
Proof.
  apply (NLS_returns Sample.log (Sample.minimize true) Classic Sample.line
           (Static Sample.a1) false false
           (fun fcn p => ex_intro _ p eq_refl)
           Sample.gap None Sample_gap_wf).
  - reflexivity.
  - discriminate.
  - reflexivity.
Defined.

(** ** What the loop of NLS leaves behind *)

Section Aggregation.

Variable np_log : float -> float.
Variable minimize : (Parameters -> list float) -> Parameters -> Minimizer.
Variable style : class_style.
Variable model_func : float -> Parameters -> float.
Variable params : ParamSpec.
Variable log_residual inverted_model : bool.

Local Abbreviation column_result :=
  (column_result np_log minimize model_func params log_residual
     inverted_model).
Local Abbreviation column_fit :=
  (column_fit np_log minimize model_func params log_residual inverted_model).
Local Abbreviation column_step :=
  (column_step np_log minimize model_func params log_residual inverted_model).

Lemma NLS_column_exact (x : Series) (weights : option Series)
    (st st' : loop_state) (c : string * list float) (tr : list event) :
  NLS_column np_log minimize model_func params log_residual inverted_model
    x weights st c = (Ok st', tr) ->
  st' = column_step x weights st c /\
  length (lmfit.residual (column_result x weights c)) = Series_size x.
Proof.
  unfold NLS_column, column_step, column_fit, column_result.
  rewrite resolve_params_run, bind_Ok.
  destruct (negb inverted_model); rewrite call_minimize_run, bind_Ok;
    cbn [fst snd]; unfold Series_with_index;
    destruct (Nat.eqb _ (Series_size x)) eqn:Hlen;
    rewrite ?bind_ret_l, ?bind_Raise; cbn [ret raise fst snd];
    intros H; inversion H; subst;
    (split; [reflexivity | by apply Nat.eqb_eq]).
Qed.

Lemma NLS_loop_exact (x : Series) (weights : option Series)
    (cols : list (string * list float)) :
  forall (st st' : loop_state) (tr : list event),
    foldM (NLS_column np_log minimize model_func params log_residual
             inverted_model x weights) st cols = (Ok st', tr) ->
    st' = foldl (column_step x weights) st cols /\
    Forall (fun c => length (lmfit.residual (column_result x weights c))
                     = Series_size x) cols.
Proof.
  induction cols as [| c cols IH]; intros st st' tr H.
  - injection H as <- _. by split.
  - cbn [foldM] in H.
    apply bind_Ok_inv in H as (st1 & t1 & t2 & H1 & H2 & _).
    apply NLS_column_exact in H1 as [-> Hlen].
    apply IH in H2 as [-> Hall]. split; [done | by constructor].
Qed.

Lemma loop_values_index (x : Series) (weights : option Series)
    (cols : list (string * list float)) (st : loop_state) :
  frame_index (st_values (foldl (column_step x weights) st cols))
  = frame_index (st_values st) /\
  frame_index (st_stderr (foldl (column_step x weights) st cols))
  = frame_index (st_stderr st).
Proof.
  revert st. induction cols as [| c cols IH]; intros st; [done |].
  cbn [foldl]. destruct (IH (column_step x weights st c)) as [-> ->]. done.
Qed.

(** With distinct labels every turn appends its column to both frames. *)
Lemma loop_values_columns (x : Series) (weights : option Series)
    (cols : list (string * list float)) :
  forall st,
    NoDup (map fst (frame_columns (st_values st)) ++ map fst cols) ->
    frame_columns (st_values (foldl (column_step x weights) st cols))
    = frame_columns (st_values st)
      ++ map (fun c =>
                (fst c,
                 reindex (frame_index (st_values st))
                   (map (fun kv => (fst kv, lmfit.value (snd kv)))
                      (lmfit.params (column_result x weights c)))))
           cols.
Proof.
  induction cols as [| c cols IH]; intros st Hnd; cbn [foldl map].
  - by rewrite app_nil_r.
  - assert (Hfresh : fst c ∉ map fst (frame_columns (st_values st))).
    { intros Hin. apply NoDup_app in Hnd as (_ & Hnd & _).
      apply (Hnd _ Hin). by left. }
    rewrite IH; cbn [column_step st_values ParamFrame_setitem
                       frame_columns frame_index].
    + rewrite (assoc_set_fresh_app _ _ _ Hfresh), <- app_assoc. reflexivity.
    + rewrite (assoc_set_fresh_app _ _ _ Hfresh), map_app, <- app_assoc.
      exact Hnd.
Qed.

Lemma loop_stderr_columns (x : Series) (weights : option Series)
    (cols : list (string * list float)) :
  forall st,
    NoDup (map fst (frame_columns (st_stderr st)) ++ map fst cols) ->
    frame_columns (st_stderr (foldl (column_step x weights) st cols))
    = frame_columns (st_stderr st)
      ++ map (fun c =>
                (fst c,
                 reindex (frame_index (st_stderr st))
                   (map (fun kv => (fst kv, lmfit.stderr (snd kv)))
                      (lmfit.params (column_result x weights c)))))
           cols.
Proof.
  induction cols as [| c cols IH]; intros st Hnd; cbn [foldl map].
  - by rewrite app_nil_r.
  - assert (Hfresh : fst c ∉ map fst (frame_columns (st_stderr st))).
    { intros Hin. apply NoDup_app in Hnd as (_ & Hnd & _).
      apply (Hnd _ Hin). by left. }
    rewrite IH; cbn [column_step st_stderr ParamFrame_setitem
                       frame_columns frame_index].
    + rewrite (assoc_set_fresh_app _ _ _ Hfresh), <- app_assoc. reflexivity.
    + rewrite (assoc_set_fresh_app _ _ _ Hfresh), map_app, <- app_assoc.
      exact Hnd.
Qed.

(** With distinct labels the dictionaries keep what each turn stored. *)
Lemma loop_dicts (x : Series) (weights : option Series)
    (cols : list (string * list float)) :
  NoDup (map fst cols) ->
  forall st c,
    c ∈ cols ->
    st_residuals (foldl (column_step x weights) st cols) !! fst c
    = Some (Series_of (lmfit.residual (column_result x weights c))) /\
    st_fits (foldl (column_step x weights) st cols) !! fst c
    = Some (column_fit x weights c).
Proof.
  assert (Hkeep : forall cols st l,
            l ∉ map fst cols ->
            st_residuals (foldl (column_step x weights) st cols) !! l
            = st_residuals st !! l /\
            st_fits (foldl (column_step x weights) st cols) !! l
            = st_fits st !! l).
  { clear. induction cols as [| c cols IH]; intros st l Hl; [done |].
    cbn [foldl]. destruct (IH (column_step x weights st c) l) as [-> ->].
    - intros Hin. apply Hl. by right.
    - cbn [column_step st_residuals st_fits].
      rewrite !lookup_insert_ne; [done | |];
        intros <-; apply Hl; by left. }
  induction cols as [| c0 cols IH]; intros Hnd st c Hc;
    [by apply elem_of_nil in Hc |].
  apply NoDup_cons in Hnd as [Hfresh Hnd].
  cbn [foldl]. apply elem_of_cons in Hc as [-> | Hc].
  - destruct (Hkeep cols (column_step x weights st c0) (fst c0) Hfresh)
      as [-> ->].
    cbn [column_step st_residuals st_fits].
    by rewrite !lookup_insert_eq.
  - by apply IH.
Qed.

(** And they hold nothing else. *)
Lemma loop_dicts_inv (x : Series) (weights : option Series)
    (cols : list (string * list float)) :
  forall st l s,
    (st_residuals (foldl (column_step x weights) st cols) !! l = Some s ->
     st_residuals st !! l = Some s \/
     exists c, c ∈ cols /\ fst c = l /\
               s = Series_of (lmfit.residual (column_result x weights c))) /\
    (st_fits (foldl (column_step x weights) st cols) !! l = Some s ->
     st_fits st !! l = Some s \/
     exists c, c ∈ cols /\ fst c = l /\ s = column_fit x weights c).
Proof.
  induction cols as [| c cols IH]; intros st l s; cbn [foldl];
    [split; by left |].
  destruct (IH (column_step x weights st c) l s) as [IHr IHf].
  split; intros H.
  - destruct (IHr H) as [H1 | (c' & Hc' & Hl & Hs)].
    + cbn [column_step st_residuals] in H1.
      apply lookup_insert_Some in H1 as [[<- <-] | [_ H1]].
      * right. exists c. split; [by left | done].
      * by left.
    + right. exists c'. split; [by right | done].
  - destruct (IHf H) as [H1 | (c' & Hc' & Hl & Hs)].
    + cbn [column_step st_fits] in H1.
      apply lookup_insert_Some in H1 as [[<- <-] | [_ H1]].
      * right. exists c. split; [by left | done].
      * by left.
    + right. exists c'. split; [by right | done].
Qed.

Lemma loop_result (x : Series) (weights : option Series)
    (cols : list (string * list float)) (st : loop_state) :
  st_result (foldl (column_step x weights) st cols)
  = match last cols with
    | Some c => Some (column_result x weights c)
    | None => st_result st
    end.
Proof.
  revert st. induction cols as [| c cols IH]; intros st; [done |].
  cbn [foldl]. rewrite IH. destruct cols as [| c' cols]; [reflexivity |].
  change (last (c :: c' :: cols)) with (last (c' :: cols)).
  destruct (last (c' :: cols)) eqn:E; [reflexivity |].
  by apply last_None in E.
Qed.

End Aggregation.

(** ** Missing values in a fit *)

(** C1, where the code departs from the claim.  On a table with strictly
    increasing row labels, take a column whose value at row [k] is missing.
    The turn of the loop for that column drops row [k] from the y series,
    which is what the parameter factory (when there is one) and the solver
    are handed; but the other series handed to the solver is the whole
    x-axis.  So the objective the solver minimises has one residual per row
    of the table, and at row [k] it has the mean of the non-null differences
    of the evaluation, times the weight of row [k] when weights are given:
    the row is not excluded from the fit.  When the turn returns, the
    residual series stored for the column is the solver's residual vector
    over every row of the table, row [k] included.  With [inverted_model]
    set x and y change places in the call, and nothing else changes. *)
Theorem missing_rows_get_mean_residual
    (np_log : float -> float)
    (minimize : (Parameters -> list float) -> Parameters -> Minimizer)
    (model_func : float -> Parameters -> float)
    (params : ParamSpec) (log_residual inverted_model : bool)
    (xs vs : list float) (weights : option (list float))
    (st : loop_state) (col : string) (k : nat) (v : float) :
  increasing xs = true ->
  length vs = length xs ->
  match weights with Some ws => length ws = length xs | None => True end ->
  vs !! k = Some v ->
  isnull true v = true ->
  let x := Series_of xs in
  let y := Series_dropna true (Series_of vs) in
  let a := if inverted_model then y else x in
  let b := if inverted_model then x else y in
  let objective q :=
    residual_func np_log model_func log_residual q a b
      (Series_of <$> weights) in
  let turn :=
    NLS_column np_log minimize model_func params log_residual inverted_model
      x (Series_of <$> weights) st (col, vs) in
  y !! k = Some None /\
  snd turn
  = match params with Callable _ => [EvParams y] | Static _ => [] end
    ++ [EvMinimize (resolved params y) a b (Series_of <$> weights)] /\
  (forall q,
     let m :=
       nanmean true
         (zip_with (raw_residual np_log model_func log_residual q) a b) in
     length (objective q) = length xs /\
     objective q !! k
     = match weights with
       | Some ws => PrimFloat.mul m <$> ws !! k
       | None => Some m
       end) /\
  (forall st' tr,
     turn = (Ok st', tr) ->
     let result := minimize objective (resolved params y) in
     st_result st' = Some result /\
     st_residuals st' !! col = Some (Series_of (lmfit.residual result)) /\
     Series_index (Series_of (lmfit.residual result)) = seq 0 (length xs)).
Proof.
  intros _ Hlen Hw Hk Hv x y a b objective turn.
  assert (Hy : y !! k = Some None) by by eapply Series_dropna_lookup_null.
  assert (Hly : length y = length xs).
  { unfold y, Series_of. by rewrite Series_dropna_length, length_map. }
  assert (Hlx : length x = length xs).
  { unfold x, Series_of. by rewrite length_map. }
  assert (Hc : covers a b).
  { unfold a, b. destruct inverted_model;
      [apply covers_of_r | apply covers_of_l]; exact Hly. }
  assert (Hla : length a = length xs).
  { unfold a. by destruct inverted_model. }
  assert (Hx : exists xk, x !! k = Some (Some xk)).
  { destruct (lookup_lt_is_Some_2 xs k) as [xk Hxk].
    - rewrite <- Hlen. by eapply lookup_lt_Some.
    - exists xk. unfold x, Series_of. by rewrite map_lookup, Hxk. }
  destruct Hx as [xk Hx].
  assert (Hraw : forall q,
            zip_with (raw_residual np_log model_func log_residual q) a b !! k
            = Some NaN).
  { intros q. rewrite lookup_zip_with. unfold a, b.
    destruct inverted_model; rewrite Hx, Hy; reflexivity. }
  split; [exact Hy |]. split; [| split].
  - unfold turn. rewrite NLS_column_trace. unfold column_trace.
    cbn [snd]. fold y. unfold a, b.
    by destruct params, inverted_model.
  - intros q m. split.
    + unfold objective. rewrite residual_func_length; [done | done |].
      destruct weights; [by rewrite Hla | done].
    + unfold objective.
      destruct weights as [ws |]; cbn [fmap option_fmap option_map].
      * rewrite residual_func_weighted, Series_mul_of, Series_values_of
          by done.
        rewrite lookup_zip_with, map_lookup, Hraw. cbn.
        by destruct (ws !! k).
      * rewrite residual_func_unweighted by done.
        by rewrite map_lookup, Hraw.
  - intros st' tr Hturn result.
    apply NLS_column_exact in Hturn as [-> Hres].
    assert (Hr : column_result np_log minimize model_func params log_residual
                   inverted_model x (Series_of <$> weights) (col, vs)
                 = result).
    { unfold column_result, result, objective, a, b. cbn [snd]. fold y.
      by destruct inverted_model. }
    rewrite Hr in Hres. cbn [column_step st_result st_residuals fst].
    rewrite Hr, lookup_insert_eq. split; [done |]. split; [done |].
    unfold Series_index. rewrite Series_index_from_of, Hres.
    unfold x. by rewrite Series_size_of.
Qed.

Lemma missing_rows_get_mean_residual_witness :
  residual_func Sample.log Sample.line false Sample.a1
    (Series_of [1; 2; 3]%float)
    (Series_dropna true (Series_of [2; NaN; 6]%float)) None !! 1%nat
  = Some
      (nanmean true
         (zip_with (raw_residual Sample.log Sample.line false Sample.a1)
            (Series_of [1; 2; 3]%float)
            (Series_dropna true (Series_of [2; NaN; 6]%float)))).
Proof.
  exact (proj2
           (proj1
              (proj2
                 (proj2
                    (missing_rows_get_mean_residual Sample.log
                       (Sample.minimize true) Sample.line (Static Sample.a1)
                       false false [1; 2; 3]%float [2; NaN; 6]%float None
                       (initial_state (Static Sample.a1) Sample.gap) "u" 1
                       NaN eq_refl eq_refl I eq_refl eq_refl)))
              Sample.a1)).
Defined.

(** The claim C1 fails on the table [Sample.gap], whose row labels 1, 2, 3
    are increasing: the value of column [u] at x = 2 is missing and is
    dropped from y, yet the solver is called with all three x, the residual
    vector has three entries (the middle one is the mean, 2, of the two
    others, 1 and 3), and the residual series of [u] in the Result has the
    row of x = 2. *)
Lemma missing_row_counterexample :
  increasing (index Sample.gap) = true /\
  Series_dropna true (Series_of [2; NaN; 6]%float)
  = [Some 2; None; Some 6]%float /\
  minimize_calls (snd (Sample.fit_gap Classic))
  = [(Sample.a1, [Some 1; Some 2; Some 3], [Some 2; None; Some 6], None);
     (Sample.a1, [Some 1; Some 2; Some 3], [Some 1; Some 2; Some 3], None)]%float /\
  residual_func Sample.log Sample.line false Sample.a1
    [Some 1; Some 2; Some 3]%float [Some 2; None; Some 6]%float None
  = [1; 2; 3]%float /\
  match getattr Classic "residuals" (Sample.returned (Sample.fit_gap Classic) ∅) with
  | Ok (VTable t) => t !! "u"
  | _ => None
  end = Some [Some 1; Some 2; Some 3]%float.
Proof. repeat split; vm_compute; reflexivity. Qed.

(** ** The accessors of Result *)

Lemma Result_lookup :
  assoc_get "values" Result
  = Some {| fget_arity := 1; fget_field := "_values";
            fset_field := "_values" |} /\
  assoc_get "stderr" Result
  = Some {| fget_arity := 1; fget_field := "_stderr";
            fset_field := "_stderr" |} /\
  assoc_get "residual" Result
  = Some {| fget_arity := 2; fget_field := "_residual";
            fset_field := "_residual" |} /\
  assoc_get "fits" Result
  = Some {| fget_arity := 2; fget_field := "_fits"; fset_field := "_fits" |}.
Proof. repeat split; reflexivity. Qed.

(** The accessors [values] and [stderr] return what was last assigned to
    them, under either reading of the class, and assigning one leaves the
    other as it was. *)
Theorem Result_values_stderr_round_trip
    (style : class_style) (v : pyval) (r : instance) :
  getattr style "values" (setattr style "values" v r) = Ok v /\
  getattr style "stderr" (setattr style "stderr" v r) = Ok v /\
  getattr style "values" (setattr style "stderr" v r)
  = getattr style "values" r /\
  getattr style "stderr" (setattr style "values" v r)
  = getattr style "stderr" r.
Proof.
  unfold instance in *.
  destruct Result_lookup as (Hv & Hs & _).
  destruct style; unfold getattr, setattr, fget; rewrite ?Hv, ?Hs;
    cbn [fget_arity fget_field fset_field Nat.eqb]; unfold instance;
    rewrite ?lookup_insert_eq, ?lookup_insert_ne by done; done.
Qed.

(** The accessors [residual] and [fits] return what was assigned only under
    the classic reading, where the assignment bypasses the property; under
    the new-style reading the read raises TypeError whatever the instance
    holds, because the getter wants a second argument. *)
Theorem Result_residual_fits_getters
    (v : pyval) (r : instance) :
  getattr Classic "residual" (setattr Classic "residual" v r) = Ok v /\
  getattr Classic "fits" (setattr Classic "fits" v r) = Ok v /\
  getattr NewStyle "residual" r = Raise TypeError /\
  getattr NewStyle "fits" r = Raise TypeError.
Proof.
  unfold instance in *.
  destruct Result_lookup as (_ & _ & Hr & Hf).
  unfold getattr, setattr, fget; rewrite ?Hr, ?Hf;
    cbn [fget_arity fget_field fset_field Nat.eqb]; unfold instance.
  by rewrite !lookup_insert_eq.
Qed.

(** ** More on the residual function *)

Section ResidualMore.

Variable np_log : float -> float.
Variable model_func : float -> Parameters -> float.
Variable log_residual : bool.

Local Abbreviation difference :=
  (difference np_log model_func log_residual).

Lemma raw_residual_complete (q : Parameters) (xs ys : list float) :
  zip_with (raw_residual np_log model_func log_residual q)
    (Series_of xs) (Series_of ys)
  = zip_with (difference q) xs ys.
Proof.
  unfold Series_of. revert ys.
  induction xs as [| xv xs IH]; intros [| yv ys]; cbn; [done .. |].
  by rewrite IH.
Qed.

Lemma Series_dropna_complete (b : bool) (ys : list float) :
  Forall (fun v => isnull b v = false) ys ->
  Series_dropna b (Series_of ys) = Series_of ys.
Proof.
  unfold Series_dropna, Series_of.
  induction 1 as [| v ys Hv _ IH]; cbn; [done |]. by rewrite Hv, IH.
Qed.

Lemma Series_dropna_hollow (b : bool) (vs : list float) :
  Forall (fun v => isnull b v = true) vs ->
  Series_dropna b (Series_of vs) = replicate (length vs) None.
Proof.
  unfold Series_dropna, Series_of.
  induction 1 as [| v vs Hv _ IH]; cbn; [done |]. by rewrite Hv, IH.
Qed.

Lemma raw_residual_hollow (q : Parameters) (xs : list float) :
  zip_with (raw_residual np_log model_func log_residual q)
    (Series_of xs) (replicate (length xs) None)
  = replicate (length xs) NaN.
Proof.
  unfold Series_of. induction xs as [| xv xs IH]; cbn; [done |].
  by rewrite IH.
Qed.

Lemma map_fill_finite (b : bool) (m : float) (ds : list float) :
  Forall (fun d => isnull b d = false) ds -> map (fill b m) ds = ds.
Proof.
  induction 1 as [| d ds Hd _ IH]; cbn; [done |].
  unfold fill at 1. by rewrite Hd, IH.
Qed.

Lemma nanmean_hollow (n : nat) : nanmean true (replicate n NaN) = NaN.
Proof.
  unfold nanmean.
  assert (H : List.filter (notnull true) (replicate n NaN) = []).
  { induction n as [| n IH]; [done |]. cbn [replicate List.filter].
    change (notnull true NaN) with false. exact IH. }
  by rewrite H.
Qed.

(** Weights multiply the residual row by row: with one weight per row, the
    weighted residual vector is the unweighted one times the weights. *)
Theorem weighted_residual_is_product
    (q : Parameters) (x y : Series) (ws : list float) :
  covers x y ->
  length ws = length x ->
  residual_func np_log model_func log_residual q x y (Some (Series_of ws))
  = zip_with PrimFloat.mul
      (residual_func np_log model_func log_residual q x y None) ws.
Proof.
  intros Hc _.
  rewrite residual_func_weighted, residual_func_unweighted by done.
  by rewrite Series_mul_of, Series_values_of.
Qed.

(** On a column without missing values whose differences are all finite the
    mean substitution changes nothing: the residual vector is the list of
    the differences, row by row. *)
Theorem residual_of_complete_data
    (q : Parameters) (xs ys : list float) :
  length ys = length xs ->
  Forall (fun v => isnull true v = false) ys ->
  Forall (fun d => isnull true d = false) (zip_with (difference q) xs ys) ->
  residual_func np_log model_func log_residual q
    (Series_of xs) (Series_dropna true (Series_of ys)) None
  = zip_with (difference q) xs ys.
Proof.
  intros Hlen Hys Hfin.
  rewrite Series_dropna_complete by done.
  rewrite residual_func_unweighted
    by (apply covers_of_l; unfold Series_of; by rewrite length_map).
  rewrite raw_residual_complete. by apply map_fill_finite.
Qed.

(** A column with no value at all gives a residual vector of NaN, one per
    row: there is no residual to average. *)
Theorem residual_of_hollow_column
    (q : Parameters) (xs vs : list float) :
  length vs = length xs ->
  Forall (fun v => isnull true v = true) vs ->
  residual_func np_log model_func log_residual q
    (Series_of xs) (Series_dropna true (Series_of vs)) None
  = replicate (length xs) NaN.
Proof.
  intros Hlen Hvs.
  rewrite Series_dropna_hollow, Hlen by done.
  rewrite residual_func_unweighted.
  - rewrite raw_residual_hollow, nanmean_hollow. clear.
    induction (length xs) as [| n IH]; [reflexivity |].
    cbn [replicate map]. rewrite IH. reflexivity.
  - apply covers_of_l. by rewrite length_replicate.
Qed.

End ResidualMore.

(** ** The Result of NLS, cell by cell *)

Lemma minimize_calls_app (t1 t2 : list event) :
  minimize_calls (t1 ++ t2) = minimize_calls t1 ++ minimize_calls t2.
Proof. unfold minimize_calls. apply omap_app. Qed.

Lemma plot_calls_app (t1 t2 : list event) :
  plot_calls (t1 ++ t2) = plot_calls t1 ++ plot_calls t2.
Proof. unfold plot_calls. apply omap_app. Qed.

Lemma assoc_get_map {A B} (f : A -> B) (k : string) (l : list (string * A)) :
  assoc_get k (map (fun kv => (fst kv, f (snd kv))) l) = f <$> assoc_get k l.
Proof.
  induction l as [| [k' a] l IH]; cbn; [done |].
  by destruct (String.eqb k k').
Qed.

Section ResultCells.

Variable np_log : float -> float.
Variable minimize : (Parameters -> list float) -> Parameters -> Minimizer.
Variable style : class_style.
Variable model_func : float -> Parameters -> float.
Variable params : ParamSpec.
Variable log_residual inverted_model : bool.

Local Abbreviation NLS_ :=
  (NLS np_log minimize style model_func params log_residual inverted_model).
Local Abbreviation column_result :=
  (column_result np_log minimize model_func params log_residual
     inverted_model).
Local Abbreviation column_fit :=
  (column_fit np_log minimize model_func params log_residual inverted_model).
Local Abbreviation column_step :=
  (column_step np_log minimize model_func params log_residual inverted_model).

(** A call that returns went through every column: the Result is assembled
    from the loop's variables after one turn per column. *)
Lemma NLS_Ok_exact (data : DataFrame) (weights : option (list float))
    (plot : bool) (r : instance) (tr : list event) :
  NLS_ data weights plot = (Ok r, tr) ->
  let st := foldl (column_step (Series_of (index data))
                     (Series_of <$> weights))
              (initial_state params data) (columns data) in
  r = assemble style model_func st /\
  columns data <> [] /\
  Forall (fun c =>
            length (lmfit.residual
                      (column_result (Series_of (index data))
                         (Series_of <$> weights) c))
            = length (index data)) (columns data) /\
  tr = sample_trace params data
       ++ flat_map (column_trace params inverted_model
                      (Series_of (index data)) (Series_of <$> weights))
            (columns data)
       ++ plot_trace style model_func plot st.
Proof.
  intros H st.
  apply NLS_Ok_inv in H as (st' & tl & Hloop & -> & Hr & _ & ->).
  pose proof Hloop as Hloop'.
  apply NLS_loop_exact in Hloop as [-> Hlen].
  apply NLS_loop_trace in Hloop' as (_ & _ & ->).
  split; [done |]. split; [| split; [| done]].
  - intros Hcols. apply Hr. by rewrite Hcols.
  - by rewrite Series_size_of in Hlen.
Qed.

(** The solver is called once per column, in the order of the columns,
    with the whole x-axis and the column without its missing values (in
    this order, or swapped when [inverted_model] is set), the same weights,
    and the parameters resolved for that column. *)
Theorem solver_called_once_per_column
    (data : DataFrame) (weights : option (list float)) (plot : bool)
    (r : instance) (tr : list event) :
  NLS_ data weights plot = (Ok r, tr) ->
  minimize_calls tr
  = map (fun c =>
           let x := Series_of (index data) in
           let y := Series_dropna true (Series_of (snd c)) in
           if negb inverted_model
           then (resolved params y, x, y, Series_of <$> weights)
           else (resolved params y, y, x, Series_of <$> weights))
      (columns data).
Proof.
  intros H. apply NLS_Ok_exact in H as (_ & _ & _ & ->).
  rewrite !minimize_calls_app.
  assert (H1 : minimize_calls (sample_trace params data) = []).
  { unfold sample_trace. destruct params; [done |].
    by destruct (columns data) as [| [? ?] ?]. }
  assert (H2 : forall st, minimize_calls (plot_trace style model_func plot st)
                          = []).
  { intros st. unfold plot_trace. destruct plot; [| done].
    by destruct (getattr _ _ _) as [[] |]. }
  rewrite H1, H2, app_nil_r. cbn [app].
  induction (columns data) as [| c cols IH]; [done |].
  cbn [flat_map map]. rewrite minimize_calls_app, IH. f_equal.
  unfold column_trace. destruct params, (negb inverted_model); reflexivity.
Qed.

Lemma transpose_reindex {C} (names : list string) (cols : list C)
    (label : C -> string) (pairs : C -> list (string * float)) :
  imap (fun j name =>
          (name,
           map (fun c' : string * list float => default NaN (snd c' !! j))
             (map (fun c => (label c, reindex names (pairs c))) cols)))
    names
  = map (fun name =>
           (name, map (fun c => default NaN (assoc_get name (pairs c))) cols))
      names.
Proof.
  etransitivity;
    [| exact (imap_const
                (fun name =>
                   (name,
                    map (fun c => default NaN (assoc_get name (pairs c)))
                      cols)) names)].
  apply imap_ext. intros j name Hj. cbn. f_equal.
  rewrite map_map. apply map_ext. intros c. cbn.
  unfold reindex. by rewrite map_lookup, Hj.
Qed.

(** Every cell of the tables of values and of standard errors is the
    solver's figure for that column and that parameter name, NaN when the
    solver's parameters lack the name; rows follow the table's columns and
    columns follow the sample parameters' names. *)
Theorem result_tables_cells
    (data : DataFrame) (weights : option (list float)) (plot : bool)
    (r : instance) (tr : list event) :
  wf_table data ->
  NLS_ data weights plot = (Ok r, tr) ->
  let fitted c :=
    lmfit.params (column_result (Series_of (index data))
                    (Series_of <$> weights) c) in
  getattr style "values" r
  = Ok (VFrame
          {| frame_index := map fst (columns data);
             frame_columns :=
               map (fun name =>
                      (name,
                       map (fun c =>
                              default NaN
                                (lmfit.value <$> assoc_get name (fitted c)))
                         (columns data)))
                 (lmfit.keys (sample_params params data)) |}) /\
  getattr style "stderr" r
  = Ok (VFrame
          {| frame_index := map fst (columns data);
             frame_columns :=
               map (fun name =>
                      (name,
                       map (fun c =>
                              default NaN
                                (lmfit.stderr <$> assoc_get name (fitted c)))
                         (columns data)))
                 (lmfit.keys (sample_params params data)) |}).
Proof.
  intros [Hnd _] H fitted.
  apply NLS_Ok_exact in H as (-> & _ & _ & _).
  rewrite getattr_values, getattr_stderr.
  unfold ParamFrame_T.
  destruct (loop_values_index np_log minimize model_func params log_residual
              inverted_model (Series_of (index data)) (Series_of <$> weights)
              (columns data) (initial_state params data)) as [-> ->].
  rewrite loop_values_columns, loop_stderr_columns by done.
  cbn [initial_state st_values st_stderr ParamFrame_new frame_index
         frame_columns app].
  rewrite !map_map. cbn [fst].
  rewrite !transpose_reindex.
  split; do 3 f_equal; apply map_ext; intros name; f_equal;
    apply map_ext; intros c; by rewrite assoc_get_map.
Qed.

Lemma getattr_model (st : loop_state) :
  getattr style "model" (assemble style model_func st)
  = Ok (VModel (fun x =>
                  result ← st_result st;
                  Some (model_func x (lmfit.params result)))).
Proof. destruct style; reflexivity. Qed.

(** The model attached to the Result is the fit of the last column, and of
    no other. *)
Theorem result_model_is_last_column
    (data : DataFrame) (weights : option (list float)) (plot : bool)
    (r : instance) (tr : list event) :
  NLS_ data weights plot = (Ok r, tr) ->
  exists c m,
    last (columns data) = Some c /\
    getattr style "model" r = Ok (VModel m) /\
    forall x0,
      m x0 = Some (model_func x0
                     (lmfit.params
                        (column_result (Series_of (index data))
                           (Series_of <$> weights) c))).
Proof.
  intros H. apply NLS_Ok_exact in H as (-> & Hcols & _ & _).
  destruct (last (columns data)) as [c |] eqn:Hlast;
    [| by apply last_None in Hlast].
  eexists c, _. split; [done |]. split; [apply getattr_model |].
  intros x0. by rewrite loop_result, Hlast.
Qed.

End ResultCells.

(** ** Residual series, fitted curves and plotting *)

Lemma plot_calls_sample_trace (params : ParamSpec) (data : DataFrame) :
  plot_calls (sample_trace params data) = [].
Proof.
  unfold sample_trace. destruct params; [done |].
  by destruct (columns data) as [| [? ?] ?].
Qed.

Lemma plot_calls_columns (params : ParamSpec) (inverted_model : bool)
    (x : Series) (weights : option Series)
    (cols : list (string * list float)) :
  plot_calls (flat_map (column_trace params inverted_model x weights) cols)
  = [].
Proof.
  induction cols as [| c cols IH]; [done |].
  cbn [flat_map]. rewrite plot_calls_app, IH, app_nil_r.
  unfold column_trace. by destruct params, (negb inverted_model).
Qed.

Lemma Series_apply_lookup (g : float -> float) (s : Series) (k : nat) :
  Series_apply g s !! k = fmap g <$> s !! k.
Proof. unfold Series_apply. apply map_lookup. Qed.

Lemma row_observed_spec (data : DataFrame) (k : nat) :
  row_observed data k = true <->
  exists c yv, c ∈ columns data /\ observed c k = Some yv.
Proof.
  unfold row_observed. rewrite existsb_exists. split.
  - intros (c & Hc & H). destruct (observed c k) as [yv |] eqn:Ho; [| done].
    exists c, yv. split; [by apply list_elem_of_In | done].
  - intros (c & yv & Hc & Ho). exists c.
    split; [by apply list_elem_of_In | by rewrite Ho].
Qed.

(** In the Result of a call that returns, on a table with strictly
    increasing row labels, the residual series of every column is the
    solver's residual vector over every row of the table.  The fitted curve
    of a column, as the table of fits holds it, has at each row the model at
    the solver's parameters: evaluated at the row's x, or, when
    [inverted_model] is set, at the column's value there; in that case a row
    where the column has no value holds NaN when another column has a value
    there, and is absent from the table when no column has one. *)
Theorem result_series_by_column
    (np_log : float -> float)
    (minimize : (Parameters -> list float) -> Parameters -> Minimizer)
    (model_func : float -> Parameters -> float)
    (params : ParamSpec) (log_residual inverted_model : bool)
    (data : DataFrame) (weights : option (list float)) (plot : bool)
    (r : instance) (tr : list event) (c : string * list float) :
  wf_table data ->
  increasing (index data) = true ->
  NLS np_log minimize Classic model_func params log_residual inverted_model
    data weights plot = (Ok r, tr) ->
  c ∈ columns data ->
  let x := Series_of (index data) in
  let result :=
    column_result np_log minimize model_func params log_residual
      inverted_model x (Series_of <$> weights) c in
  exists (residuals fits : gmap string Series) (fit : Series),
    getattr Classic "residuals" r = Ok (VTable residuals) /\
    getattr Classic "fits" r = Ok (VTable fits) /\
    residuals !! fst c = Some (Series_of (lmfit.residual result)) /\
    length (lmfit.residual result) = length (index data) /\
    fits !! fst c = Some fit /\
    length fit = length (index data) /\
    forall k xk,
      index data !! k = Some xk ->
      fit !! k
      = Some (if negb inverted_model
              then Some (model_func xk (lmfit.params result))
              else match observed c k with
                   | Some yv => Some (model_func yv (lmfit.params result))
                   | None => if row_observed data k then Some NaN else None
                   end).
Proof.
  intros [Hnd Hwf] _ H Hc x result.
  apply NLS_Ok_exact in H as (-> & _ & Hlen & _).
  rewrite getattr_residuals, getattr_fits. fold x.
  set (st := foldl _ _ _).
  set (n := length (index data)).
  destruct (loop_dicts np_log minimize model_func params log_residual
              inverted_model x (Series_of <$> weights) (columns data) Hnd
              (initial_state params data) c Hc) as [Hr Hf].
  fold st in Hr, Hf. fold result in Hr.
  rewrite Forall_forall in Hlen, Hwf.
  assert (Hres : concat_table (st_residuals st) = st_residuals st).
  { apply (concat_table_full n). intros l s Hl.
    apply (loop_dicts_inv np_log minimize model_func params log_residual
             inverted_model) in Hl as [Hl | (c' & Hc' & _ & ->)];
      [by cbn in Hl |].
    eexists. split; [reflexivity | by apply Hlen]. }
  assert (Hfits : forall l s,
            st_fits st !! l = Some s ->
            exists c', c' ∈ columns data /\
              s = column_fit np_log minimize model_func params log_residual
                    inverted_model x (Series_of <$> weights) c').
  { intros l s Hl.
    apply (loop_dicts_inv np_log minimize model_func params log_residual
             inverted_model) in Hl as [Hl | (c' & Hc' & _ & ->)];
      [by cbn in Hl | by exists c']. }
  assert (Hfl : forall c', c' ∈ columns data ->
            length (column_fit np_log minimize model_func params log_residual
                      inverted_model x (Series_of <$> weights) c') = n).
  { intros c' Hc'. unfold column_fit, Series_apply, x, Series_of.
    destruct (negb inverted_model);
      rewrite ?length_map, ?Series_dropna_length, ?length_map;
      [done | by apply Hwf]. }
  assert (Hall : map_Forall (fun (_ : string) (s : Series) => length s = n)
                   (st_fits st)).
  { intros l s Hl. destruct (Hfits l s Hl) as (c' & Hc' & ->). by apply Hfl. }
  assert (Hne : st_fits st <> ∅).
  { intros He. by rewrite He, lookup_empty in Hf. }
  destruct (concat_index_fold n (st_fits st) Hall) as [_ Hidx].
  destruct (Hidx Hne) as [Hn Hrows]. clear Hidx.
  eexists _, _, _. split; [reflexivity |]. split; [reflexivity |].
  rewrite Hres. split; [exact Hr |]. split; [by apply Hlen |].
  split; [unfold concat_table; by rewrite lookup_fmap, Hf |].
  split; [by rewrite Series_reindex_length |].
  intros k xk Hk.
  assert (Hlt : k < n) by by eapply lookup_lt_Some.
  rewrite Series_reindex_lookup.
  destruct (lookup_lt_is_Some_2 (concat_index (st_fits st)) k) as [b Hb];
    [by rewrite Hn |].
  rewrite Hb. cbn [fmap option_fmap option_map]. f_equal.
  assert (Hx : x !! k = Some (Some xk)).
  { unfold x, Series_of. by rewrite map_lookup, Hk. }
  unfold column_fit. fold result.
  destruct (negb inverted_model) eqn:Hinv.
  - rewrite Series_apply_lookup, Hx. cbn.
    assert (b = true) as ->; [| done].
    assert (Ht : concat_index (st_fits st) !! k = Some true);
      [| congruence].
    apply Hrows. eexists (fst c), _, _. split; [exact Hf |].
    unfold column_fit. rewrite Hinv, Series_apply_lookup, Hx. reflexivity.
  - rewrite Series_apply_lookup. unfold observed.
    set (y := Series_dropna true (Series_of (snd c))).
    destruct (y !! k) as [[yv |] |] eqn:Hy; cbn.
    + assert (b = true) as ->; [| done].
      assert (Ht : concat_index (st_fits st) !! k = Some true);
        [| congruence].
      apply Hrows. eexists (fst c), _, _. split; [exact Hf |].
      unfold column_fit. rewrite Hinv, Series_apply_lookup. fold y.
      rewrite Hy. reflexivity.
    + assert (b = row_observed data k) as ->; [| done].
      apply eq_true_iff_eq. rewrite row_observed_spec. split.
      * intros ->. apply Hrows in Hb as (l & s & v & Hl & Hs).
        destruct (Hfits l s Hl) as (c' & Hc' & ->).
        unfold column_fit in Hs. rewrite Hinv, Series_apply_lookup in Hs.
        destruct (Series_dropna true (Series_of (snd c')) !! k)
          as [[yv |] |] eqn:Hy'; [| done ..].
        exists c', yv. split; [done |]. unfold observed. by rewrite Hy'.
      * intros (c' & yv & Hc' & Ho).
        assert (Ht : concat_index (st_fits st) !! k = Some true);
          [| congruence].
        apply Hrows.
        destruct (loop_dicts np_log minimize model_func params log_residual
                    inverted_model x (Series_of <$> weights) (columns data)
                    Hnd (initial_state params data) c' Hc') as [_ Hf'].
        fold st in Hf'. unfold observed in Ho.
        destruct (Series_dropna true (Series_of (snd c')) !! k)
          as [[yv' |] |] eqn:Hy'; [| done ..].
        eexists (fst c'), _, _. split; [exact Hf' |].
        unfold column_fit. rewrite Hinv, Series_apply_lookup, Hy'.
        reflexivity.
    + exfalso. apply lookup_ge_None in Hy.
      unfold y, Series_of in Hy.
      rewrite Series_dropna_length, length_map, (Hwf c) in Hy by done.
      unfold n in Hlt. lia.
Qed.

(** The plotting module is called exactly when [plot] is set: once, after
    the loop, with the table of fitted curves that the Result holds. *)
Theorem plot_called_when_requested
    (np_log : float -> float)
    (minimize : (Parameters -> list float) -> Parameters -> Minimizer)
    (model_func : float -> Parameters -> float)
    (params : ParamSpec) (log_residual inverted_model : bool)
    (data : DataFrame) (weights : option (list float)) (plot : bool)
    (r : instance) (tr : list event) :
  NLS np_log minimize Classic model_func params log_residual inverted_model
    data weights plot = (Ok r, tr) ->
  exists fits,
    getattr Classic "fits" r = Ok (VTable fits) /\
    plot_calls tr = if plot then [fits] else [].
Proof.
  intros H. apply NLS_Ok_exact in H as (-> & _ & _ & ->).
  rewrite getattr_fits. eexists. split; [reflexivity |].
  rewrite !plot_calls_app, plot_calls_sample_trace, plot_calls_columns.
  unfold plot_trace. rewrite getattr_fits. by destruct plot.
Qed.

(** ** Missing values in the power-law fit *)

Lemma Series_values_apply (g : float -> float) (s : Series) :
  Series_values (Series_apply g s) = map g (Series_values s).
Proof.
  unfold Series_values, Series_apply.
  induction s as [| [v |] s IH]; cbn; [done | | done]. by f_equal.
Qed.

Lemma dropna_values_le (b : bool) (vs : list float) :
  length (Series_values (Series_dropna b (Series_of vs))) <= length vs.
Proof.
  unfold Series_values, Series_dropna, Series_of.
  induction vs as [| v vs IH]; cbn; [done |].
  destruct (isnull b v); cbn; lia.
Qed.

Lemma dropna_values_lt (b : bool) (vs : list float) (v : float) :
  v ∈ vs -> isnull b v = true ->
  length (Series_values (Series_dropna b (Series_of vs))) < length vs.
Proof.
  intros Hin Hv. induction Hin as [v vs | v u vs _ IH].
  - pose proof (dropna_values_le b vs) as Hle.
    unfold Series_values, Series_dropna, Series_of in *. cbn.
    rewrite Hv. cbn. lia.
  - specialize (IH Hv).
    unfold Series_values, Series_dropna, Series_of in *. cbn.
    destruct (isnull b u); cbn; lia.
Qed.

Section PowerlawMissing.

Variable np_log : float -> float.
Variable np_exp : float -> float.
Variable np_pow : float -> float -> float.
Variable linregress : list float -> list float -> outcome (float * float).

(** [linregress] raises when its two samples differ in length. *)
Hypothesis linregress_lengths :
  forall a b, length a <> length b -> exists e, linregress a b = Raise e.

Lemma powerlaw_loop_regressions (x : Series)
    (cols : list (string * list float)) :
  forall (st st' : ParamFrame * gmap string Series) (tr : list event),
    length (frame_index (fst st)) = 2 ->
    foldM (fit_powerlaw_column np_log np_exp np_pow linregress x) st cols
    = (Ok st', tr) ->
    forall c, c ∈ cols -> exists si, regression np_log linregress x c = Ok si.
Proof.
  induction cols as [| c0 cols IH]; intros st st' tr Hlen H c Hc;
    [by apply elem_of_nil in Hc |].
  cbn [foldM] in H.
  destruct (regression np_log linregress x c0) as [si | e] eqn:Hr.
  - rewrite (fit_powerlaw_column_Ok _ _ _ _ x st c0 si Hr Hlen), bind_Ok in H.
    apply elem_of_cons in Hc as [-> | Hc]; [by exists si |].
    destruct (foldM _ _ cols) as [[st1 | e] t] eqn:Hloop; [| discriminate].
    by eapply IH; [| exact Hloop |].
  - rewrite (fit_powerlaw_column_Raise _ _ _ _ x st c0 e Hr) in H.
    discriminate.
Qed.

(** A NaN in a column makes [fit_powerlaw] raise: the NaN is dropped from
    the column but not from the x-axis, so the regression is handed two
    samples of different lengths. *)
Theorem fit_powerlaw_rejects_missing_values
    (data : DataFrame) (plot : bool) (c : string * list float) (v : float) :
  c ∈ columns data ->
  length (snd c) = length (index data) ->
  v ∈ snd c ->
  PrimFloat.is_nan v = true ->
  exists e tr,
    fit_powerlaw np_log np_exp np_pow linregress data plot = (Raise e, tr).
Proof.
  intros Hc Hlen Hv Hnan.
  destruct (fit_powerlaw np_log np_exp np_pow linregress data plot)
    as [[values | e] tr] eqn:H; [| by eexists _, _].
  exfalso. unfold fit_powerlaw in H.
  apply bind_Ok_inv in H as (st & t1 & t2 & Hloop & _).
  destruct (powerlaw_loop_regressions (Series_of (index data))
              (columns data) (ParamFrame_new ["n"; "A"], ∅) st t1
              eq_refl Hloop c Hc) as [si Hsi].
  unfold regression in Hsi.
  destruct (linregress_lengths
              (Series_values (Series_apply np_log (Series_of (index data))))
              (Series_values
                 (Series_apply np_log
                    (Series_dropna false (Series_of (snd c))))))
    as [e He]; [| by rewrite He in Hsi].
  rewrite !Series_values_apply, !length_map, Series_values_of.
  pose proof (dropna_values_lt false (snd c) v Hv) as Hlt.
  unfold isnull in Hlt. rewrite Hnan in Hlt. specialize (Hlt eq_refl). lia.
Qed.

End PowerlawMissing.

(** The substitution of the mean applies without [log_residual] as well:
    the residual function returns [observed - predicted] where that value
    is finite and the mean of the finite ones elsewhere. *)
Theorem linear_residual_mean_substitution
    (np_log : float -> float) (model_func : float -> Parameters -> float)
    (q : Parameters) (x y : Series) :
  covers x y ->
  residual_func np_log model_func false q x y None
  = let d := zip_with (raw_residual np_log model_func false q) x y in
    map (fun v => if finite v then v else mean_of_finite d) d.
Proof.
  intros Hc. rewrite residual_func_unweighted by done. cbv zeta.
  rewrite mean_of_finite_nanmean.
  apply map_ext. intros v. unfold fill.
  rewrite finite_notnull. unfold notnull.
  by destruct (isnull true v).
Qed.

(** ** Runs on the sample tables *)

Lemma Sample_gap_covers :
  covers (Series_of [1; 2; 3]%float) [Some 2; None; Some 6]%float.
Proof. repeat constructor; eauto. Qed.

Lemma linear_residual_mean_substitution_witness :
  residual_func Sample.log Sample.line false Sample.a1
    (Series_of [1; 2; 3]%float) [Some 2; None; Some 6]%float None
  = [1; 2; 3]%float.
Proof.
  rewrite (linear_residual_mean_substitution Sample.log Sample.line
             Sample.a1 _ _ Sample_gap_covers).
  reflexivity.
Defined.

Lemma weighted_residual_is_product_witness :
  residual_func Sample.log Sample.line false Sample.a1
    (Series_of [1; 2; 3]%float) [Some 2; None; Some 6]%float
    (Some (Series_of [1; 2; 3]%float))
  = zip_with PrimFloat.mul
      (residual_func Sample.log Sample.line false Sample.a1
         (Series_of [1; 2; 3]%float) [Some 2; None; Some 6]%float None)
      [1; 2; 3]%float.
Proof.
  exact (weighted_residual_is_product Sample.log Sample.line false Sample.a1
           _ _ [1; 2; 3]%float Sample_gap_covers eq_refl).
Defined.

Lemma residual_of_complete_data_witness :
  residual_func Sample.log Sample.line false Sample.a1
    (Series_of [1; 2; 3]%float)
    (Series_dropna true (Series_of [2; 3; 6]%float)) None
  = zip_with (difference Sample.log Sample.line false Sample.a1)
      [1; 2; 3]%float [2; 3; 6]%float.
Proof.
  apply (residual_of_complete_data Sample.log Sample.line false Sample.a1
           [1; 2; 3]%float [2; 3; 6]%float eq_refl);
    repeat constructor.
Defined.

Lemma residual_of_hollow_column_witness :
  residual_func Sample.log Sample.line false Sample.a1
    (Series_of [1; 2]%float) (Series_dropna true (Series_of [NaN; NaN])) None
  = [NaN; NaN].
Proof.
  apply (residual_of_hollow_column Sample.log Sample.line false Sample.a1
           [1; 2]%float [NaN; NaN] eq_refl).
  repeat constructor.
Defined.

Lemma Sample_fit_gap_returns (style : class_style) :
  Sample.fit_gap style
  = (Ok (Sample.returned (Sample.fit_gap style) ∅),
     snd (Sample.fit_gap style)).
Proof. destruct style; vm_compute; reflexivity. Qed.

Lemma solver_called_once_per_column_witness :
  minimize_calls (snd (Sample.fit_gap Classic))
  = [(Sample.a1, [Some 1; Some 2; Some 3], [Some 2; None; Some 6], None);
     (Sample.a1, [Some 1; Some 2; Some 3], [Some 1; Some 2; Some 3], None)]%float.
Proof.
  exact (solver_called_once_per_column Sample.log (Sample.minimize true)
           Classic Sample.line (Static Sample.a1) false false Sample.gap
           None false _ _ (Sample_fit_gap_returns Classic)).
Defined.

Lemma result_tables_cells_witness :
  getattr Classic "values" (Sample.returned (Sample.fit_gap Classic) ∅)
  = Ok (VFrame {| frame_index := ["u"; "v"];
                  frame_columns := [("a", [1; 1]%float)] |}).
Proof.
  exact (proj1 (result_tables_cells Sample.log (Sample.minimize true)
                  Classic Sample.line (Static Sample.a1) false false
                  Sample.gap None false _ _ Sample_gap_wf
                  (Sample_fit_gap_returns Classic))).
Defined.

Lemma result_model_is_last_column_witness :
  exists c m,
    last (columns Sample.gap) = Some c /\
    getattr Classic "model" (Sample.returned (Sample.fit_gap Classic) ∅)
    = Ok (VModel m) /\
    forall x0,
      m x0 = Some (Sample.line x0
                     (lmfit.params
                        (column_result Sample.log (Sample.minimize true)
                           Sample.line (Static Sample.a1) false false
                           (Series_of (index Sample.gap)) None c))).
Proof.
  exact (result_model_is_last_column Sample.log (Sample.minimize true)
           Classic Sample.line (Static Sample.a1) false false Sample.gap
           None false _ _ (Sample_fit_gap_returns Classic)).
Defined.

Lemma Sample_u_in_gap : ("u", [2; NaN; 6]%float) ∈ columns Sample.gap.
Proof. by left. Qed.

Lemma Sample_fit_gap_inverted_returns :
  Sample.fit_gap_inverted
  = (Ok (Sample.returned Sample.fit_gap_inverted ∅),
     snd Sample.fit_gap_inverted).
Proof. vm_compute; reflexivity. Qed.

Lemma result_series_by_column_witness :
  exists (residuals fits : gmap string Series) (fit : Series),
    getattr Classic "residuals" (Sample.returned Sample.fit_gap_inverted ∅)
    = Ok (VTable residuals) /\
    getattr Classic "fits" (Sample.returned Sample.fit_gap_inverted ∅)
    = Ok (VTable fits) /\
    residuals !! "u" = Some [Some (-1); Some (-2); Some (-3)]%float /\
    length [-1; -2; -3]%float = 3 /\
    fits !! "u" = Some fit /\
    length fit = 3 /\
    forall k xk,
      index Sample.gap !! k = Some xk ->
      fit !! k
      = Some match observed ("u", [2; NaN; 6]%float) k with
             | Some yv => Some (Sample.line yv Sample.a1)
             | None => if row_observed Sample.gap k then Some NaN else None
             end.
Proof.
  exact (result_series_by_column Sample.log (Sample.minimize true)
           Sample.line (Static Sample.a1) false true Sample.gap None false
           _ _ ("u", [2; NaN; 6]%float) Sample_gap_wf eq_refl
           Sample_fit_gap_inverted_returns Sample_u_in_gap).
Defined.

(** The table of fits of that call: column [u] has no value at x = 2 and
    column [v] has one, so the curve of [u] holds NaN there. *)
Lemma Sample_inverted_fits :
  match getattr Classic "fits"
          (Sample.returned Sample.fit_gap_inverted ∅) with
  | Ok (VTable t) => (t !! "u", t !! "v")
  | _ => (None, None)
  end
  = (Some [Some 2; Some NaN; Some 6]%float,
     Some [Some 1; Some 2; Some 3]%float).
Proof. vm_compute. reflexivity. Qed.

Lemma plot_called_when_requested_witness :
  exists fits,
    getattr Classic "fits" (Sample.returned (Sample.fit_gap Classic) ∅)
    = Ok (VTable fits) /\
    plot_calls (snd (Sample.fit_gap Classic)) = [].
Proof.
  exact (plot_called_when_requested Sample.log (Sample.minimize true)
           Sample.line (Static Sample.a1) false false Sample.gap None false
           _ _ (Sample_fit_gap_returns Classic)).
Defined.

Lemma Sample_linregress_lengths (a b : list float) :
  length a <> length b -> exists e, Sample.linregress a b = Raise e.
Proof.
  intros Hne. unfold Sample.linregress.
  destruct (Nat.eqb_spec (length a) (length b)); [done | by eexists].
Qed.

Lemma fit_powerlaw_rejects_missing_values_witness :
  exists e tr,
    fit_powerlaw Sample.log Sample.exp Sample.pow Sample.linregress
      Sample.gap false = (Raise e, tr).
Proof.
  apply (fit_powerlaw_rejects_missing_values Sample.log Sample.exp
           Sample.pow Sample.linregress Sample_linregress_lengths
           Sample.gap false ("u", [2; NaN; 6]%float) NaN).
  - exact Sample_u_in_gap.
  - reflexivity.
  - cbn. right. by left.
  - reflexivity.
Defined.
